(** * The per-chat playback queue of [music_handler.py]

    A shallow embedding of [MusicHandler]: its five dictionaries keyed by
    chat id, the queue operations ([_play_next], [after_playing],
    [stop_playback], [shuffle_queue], [set_playback_speed], ...) and the
    properties the specification states about them.

    The Discord and Telegram SDKs, yt-dlp and FFmpeg are outside the
    repository.  Their answers are taken from an [Externals] record and the
    calls made to them are appended to a trace, so that what the handler
    asked the driver to do can be stated. *)

From Stdlib Require Import ZArith PrimFloat Ascii.
From Equations Require Import Equations.
From stdpp Require Import gmap strings list pretty.

Local Open Scope Z_scope.

(** * Data model *)

(** The [song_data] dictionary built by [search_and_play]. *)
Record Song := {
  song_title : string;
  song_url : string;
  song_duration : Z;
  song_thumbnail : string;
  song_views : string;
  song_uploader : string;
  song_video : bool;
  song_requested_by : Z;
  song_platform : string
}.

(** A [discord.VoiceClient] object, known only by its identity. *)
Inductive VoiceClient := VC (id : Z).

(** What the handler reads from the [ctx] object of a command. *)
Record Context := {
  guild_id : option Z;               (* [ctx.guild.id], [None] outside a guild *)
  author_id : Z;                     (* [ctx.author.id] *)
  effective_chat_id : Z;             (* [ctx.effective_chat.id] *)
  effective_user_id : Z;             (* [ctx.effective_user.id] *)
  voice_client : option VoiceClient; (* [ctx.voice_client] *)
  author_voice : option Z            (* channel of [ctx.author.voice], if any *)
}.

(** The dictionary yt-dlp's [extract_info] returns, as far as it is read. *)
Record YdlInfo := {
  info_url : option string;          (* [info['url']] when ['url' in info] *)
  info_entries : list string         (* [e['url']] for [e] in [info['entries']] *)
}.

(** The entry [_search_song] returns, as far as [search_and_play] reads it. *)
Record SongInfo := {
  si_title : string;
  si_url : string;
  si_duration : Z;
  si_thumbnail : option string;
  si_view_count : option string;
  si_uploader : option string
}.

(** Calls into the SDKs, in the order they are made. *)
Inductive DriverCall :=
  | SearchSong (query : string)
  | ExtractInfo (url : string)
  | Connect (channel : Z)
  | Play (vc : VoiceClient) (audio_source : string) (atempo : option float)
  | Stop (vc : VoiceClient)
  | Disconnect (vc : VoiceClient)
  | Pause (vc : VoiceClient)
  | Resume (vc : VoiceClient)
  | Piped (video : bool) (url : string).

(** Answers of the collaborators.  [None] or [false] stands for a raised
    exception where the Python call can raise.  [play] answers for building
    the FFmpeg source and for [voice_client.play]; [search_song] is the whole
    of [_search_song], a lookup in yt-dlp that returns [None] on any error;
    [pytgcalls] tells whether [_play_telegram] can import pytgcalls and build
    its stream. *)
Record Externals := {
  extract_info : string -> option YdlInfo;
  search_song : string -> option SongInfo;
  connect : Z -> option VoiceClient;
  play : VoiceClient -> string -> option float -> bool;
  disconnect : VoiceClient -> bool;
  is_playing : VoiceClient -> bool;
  is_paused : VoiceClient -> bool;
  pytgcalls : Song -> bool
}.

(** The mutable state of a [MusicHandler] instance, with the trace of driver
    calls made so far (oldest first). *)
Record MusicHandler := {
  queues : gmap Z (list Song);
  current_songs : gmap Z Song;
  loop_modes : gmap Z Z;
  playback_speeds : gmap Z float;
  voice_clients : gmap Z VoiceClient;
  driver_calls : list DriverCall
}.

(** [MusicHandler.__init__]. *)
Definition init : MusicHandler :=
  {| queues := ∅; current_songs := ∅; loop_modes := ∅;
     playback_speeds := ∅; voice_clients := ∅; driver_calls := [] |}.

Definition set_queues (q : gmap Z (list Song)) (h : MusicHandler) :=
  {| queues := q; current_songs := current_songs h; loop_modes := loop_modes h;
     playback_speeds := playback_speeds h; voice_clients := voice_clients h;
     driver_calls := driver_calls h |}.

Definition set_current_songs (c : gmap Z Song) (h : MusicHandler) :=
  {| queues := queues h; current_songs := c; loop_modes := loop_modes h;
     playback_speeds := playback_speeds h; voice_clients := voice_clients h;
     driver_calls := driver_calls h |}.

Definition set_loop_modes (l : gmap Z Z) (h : MusicHandler) :=
  {| queues := queues h; current_songs := current_songs h; loop_modes := l;
     playback_speeds := playback_speeds h; voice_clients := voice_clients h;
     driver_calls := driver_calls h |}.

Definition set_playback_speeds (p : gmap Z float) (h : MusicHandler) :=
  {| queues := queues h; current_songs := current_songs h;
     loop_modes := loop_modes h; playback_speeds := p;
     voice_clients := voice_clients h; driver_calls := driver_calls h |}.

Definition set_voice_clients (v : gmap Z VoiceClient) (h : MusicHandler) :=
  {| queues := queues h; current_songs := current_songs h;
     loop_modes := loop_modes h; playback_speeds := playback_speeds h;
     voice_clients := v; driver_calls := driver_calls h |}.

(** Record one call into an SDK. *)
Definition call (c : DriverCall) (h : MusicHandler) :=
  {| queues := queues h; current_songs := current_songs h;
     loop_modes := loop_modes h; playback_speeds := playback_speeds h;
     voice_clients := voice_clients h; driver_calls := driver_calls h ++ [c] |}.

(** Exceptions the handler raises or lets through. *)
Inductive Exn :=
  | Exception (msg : string)
  | KeyError (key : Z).

(** The result of a method: it returns a value or raises, and in both cases
    the mutations made so far stay. *)
Inductive Outcome (A : Type) :=
  | Return (h : MusicHandler) (a : A)
  | Raise (h : MusicHandler) (e : Exn).
Arguments Return {A} h a.
Arguments Raise {A} h e.

Definition state_of {A} (o : Outcome A) : MusicHandler :=
  match o with Return h _ => h | Raise h _ => h end.

Definition raised {A} (o : Outcome A) : bool :=
  match o with Return _ _ => false | Raise _ _ => true end.

(** * The handler

    ** Reading the dictionaries *)

(** [platform == 'discord']. *)
Definition is_discord (platform : string) : bool := String.eqb platform "discord".

(** [_get_chat_id]. *)
Definition _get_chat_id (ctx : Context) (platform : string) : Z :=
  if is_discord platform then
    match guild_id ctx with Some g => g | None => author_id ctx end
  else effective_chat_id ctx.

(** [_get_user_id]. *)
Definition _get_user_id (ctx : Context) (platform : string) : Z :=
  if is_discord platform then author_id ctx else effective_user_id ctx.

(** Truth value of [self.queues.get(chat_id)]: the key is present and the
    list is not empty. *)
Definition has_queue (h : MusicHandler) (chat_id : Z) : bool :=
  match queues h !! chat_id with Some (_ :: _) => true | _ => false end.

(** [self.queues.get(chat_id, [])]. *)
Definition queue_of (h : MusicHandler) (chat_id : Z) : list Song :=
  default [] (queues h !! chat_id).

(** [self.loop_modes.get(chat_id, 0)]. *)
Definition loop_mode_of (h : MusicHandler) (chat_id : Z) : Z :=
  default 0 (loop_modes h !! chat_id).

(** [self.playback_speeds.get(chat_id, 1.0)]. *)
Definition speed_of (h : MusicHandler) (chat_id : Z) : float :=
  default 1.0%float (playback_speeds h !! chat_id).

(** ** Starting playback *)

(** [_get_audio_source]: the stream URL of a track, or an exception. *)
Definition _get_audio_source (w : Externals) (url : string) (chat_id : Z)
    (h : MusicHandler) : Outcome string :=
  let h := call (ExtractInfo url) h in
  match extract_info w url with
  | None => Raise h (Exception "extract_info failed")
  | Some info =>
      match info_url info with
      | Some u => Return h u
      | None =>
          match info_entries info with
          | u :: _ => Return h u
          | [] => Raise h (Exception "Could not extract audio URL")
          end
      end
  end.

(** The [-filter:a "atempo=..."] option [_play_discord] adds when the stored
    speed differs from 1.0. *)
Definition atempo (h : MusicHandler) (chat_id : Z) : option float :=
  let speed := speed_of h chat_id in
  if negb (PrimFloat.eqb speed 1.0%float) then Some speed else None.

(** [_play_discord]: find or open the voice connection, start the player and
    store the connection.  The completion callback it installs is
    [after_playing] below. *)
Definition _play_discord (w : Externals) (ctx : Context) (audio_source : string)
    (chat_id : Z) (h : MusicHandler) : Outcome unit :=
  let connected : Outcome VoiceClient :=
    match voice_client ctx with
    | Some vc => Return h vc
    | None =>
        match author_voice ctx with
        | Some channel =>
            let h := call (Connect channel) h in
            match connect w channel with
            | Some vc => Return h vc
            | None => Raise h (Exception "connect failed")
            end
        | None => Raise h (Exception "User not in voice channel")
        end
    end in
  match connected with
  | Raise h e => Raise h e
  | Return h vc =>
      let opts := atempo h chat_id in
      let h := call (Play vc audio_source opts) h in
      if play w vc audio_source opts then
        Return (set_voice_clients (<[chat_id := vc]> (voice_clients h)) h) tt
      else Raise h (Exception "play failed")
  end.

(** [_play_telegram]: builds the piped stream when pytgcalls can be imported;
    it stores no connection. *)
Definition _play_telegram (w : Externals) (ctx : Context) (song : Song)
    (chat_id : Z) (h : MusicHandler) : Outcome unit :=
  if pytgcalls w song then
    Return (call (Piped (song_video song) (song_url song)) h) tt
  else
    Raise h (Exception "Telegram voice chat not supported. Install pytgcalls.").

(** The part of the [try] block of [_play_next] that follows
    [self.current_songs[chat_id] = song]. *)
Definition start_playback (w : Externals) (ctx : Context) (platform : string)
    (chat_id : Z) (song : Song) (h : MusicHandler) : Outcome unit :=
  match _get_audio_source w (song_url song) chat_id h with
  | Raise h e => Raise h e
  | Return h audio_source =>
      if is_discord platform then _play_discord w ctx audio_source chat_id h
      else _play_telegram w ctx song chat_id h
  end.

(** ** [_play_next] *)

Definition inspect {A} (a : A) : {b | a = b} := exist _ a eq_refl.

(** [self.current_songs.pop(chat_id, None)]. *)
Definition pop_current (chat_id : Z) (h : MusicHandler) : MusicHandler :=
  set_current_songs (delete chat_id (current_songs h)) h.

(** [song = self.queues[chat_id].pop(0); self.current_songs[chat_id] = song]
    for a queue [song :: rest]. *)
Definition take_head (chat_id : Z) (song : Song) (rest : list Song)
    (h : MusicHandler) : MusicHandler :=
  set_current_songs (<[chat_id := song]> (current_songs h))
    (set_queues (<[chat_id := rest]> (queues h)) h).

(** [_play_next]: pop the head of the queue into [current_songs] and start
    it; on any exception, log it and go on to the next queued song while the
    queue is not empty.  The [except] clause catches every exception, so the
    method itself never raises.  Each recursive call sees a shorter queue. *)
Equations? _play_next (w : Externals) (chat_id : Z) (ctx : Context)
    (platform : string) (h : MusicHandler) : MusicHandler
    by wf (length (queue_of h chat_id)) lt :=
  _play_next w chat_id ctx platform h with inspect (queues h !! chat_id) := {
    | exist _ None _ => pop_current chat_id h
    | exist _ (Some []) _ => pop_current chat_id h
    | exist _ (Some (song :: rest)) Hq
        with inspect (start_playback w ctx platform chat_id song
                        (take_head chat_id song rest h)) := {
        | exist _ (Return h' _) _ => h'
        | exist _ (Raise h' _) Hs with inspect (has_queue h' chat_id) := {
            | exist _ true _ => _play_next w chat_id ctx platform h'
            | exist _ false _ => h' } } }.
Proof.
  assert (queues h' = queues (take_head chat_id song rest h)) as E.
  { revert Hs.
    unfold start_playback, _get_audio_source, _play_discord, _play_telegram.
    repeat case_match; intros; simplify_eq; reflexivity. }
  unfold queue_of. rewrite E, Hq. simpl. rewrite lookup_insert_eq. simpl. lia.
Qed.

(** ** The completion callback *)

(** [after_playing], the callback [_play_discord] hands to
    [voice_client.play]; it closes over [ctx] and [chat_id] and always passes
    the platform ['discord'].  Its [error] argument is only logged.
    [asyncio.create_task(self._play_next(...))] is modelled as running
    [_play_next] once the callback body is over, with nothing in between.
    [self.queues[chat_id]] raises [KeyError] when the chat has no queue; no
    task is created then.  This is the callback where an event loop runs;
    [after_playing_in_player_thread] below is the callback in the thread
    discord.py calls it from. *)
Definition after_playing (w : Externals) (ctx : Context) (chat_id : Z)
    (h : MusicHandler) : Outcome unit :=
  let loop_mode := loop_mode_of h chat_id in
  if loop_mode =? 1 then
    Return (_play_next w chat_id ctx "discord" h) tt
  else if 1 <? loop_mode then
    let requeued : Outcome unit :=
      if loop_mode =? 2 then
        match current_songs h !! chat_id with
        | Some current =>
            match queues h !! chat_id with
            | Some q => Return (set_queues (<[chat_id := q ++ [current]]> (queues h)) h) tt
            | None => Raise h (KeyError chat_id)
            end
        | None => Return h tt
        end
      else
        let h := set_loop_modes (<[chat_id := loop_mode - 1]> (loop_modes h)) h in
        match current_songs h !! chat_id with
        | Some current =>
            match queues h !! chat_id with
            | Some q => Return (set_queues (<[chat_id := current :: q]> (queues h)) h) tt
            | None => Raise h (KeyError chat_id)
            end
        | None => Return h tt
        end in
    match requeued with
    | Return h _ => Return (_play_next w chat_id ctx "discord" h) tt
    | Raise h e => Raise h e
    end
  else
    Return (_play_next w chat_id ctx "discord" h) tt.

(** What [asyncio.create_task] raises in a thread that runs no event loop:
    [RuntimeError('no running event loop')]. *)
Definition no_running_event_loop : Exn := Exception "no running event loop".

(** [after_playing] where discord.py calls it.  [voice_client.play] hands
    the callback to the audio player, and the player calls it from its own
    thread when the source ends or is stopped.  No event loop runs in that
    thread, so [asyncio.create_task] raises in each of the three branches:
    the coroutine [self._play_next(...)] is built and never run.  What the
    callback did before that call stays: the requeue of the loop modes above
    1, or the [KeyError] of [self.queues[chat_id]] when the chat has no
    queue. *)
Definition after_playing_in_player_thread (chat_id : Z) (h : MusicHandler)
    : Outcome unit :=
  let loop_mode := loop_mode_of h chat_id in
  if loop_mode =? 1 then
    Raise h no_running_event_loop
  else if 1 <? loop_mode then
    let requeued : Outcome unit :=
      if loop_mode =? 2 then
        match current_songs h !! chat_id with
        | Some current =>
            match queues h !! chat_id with
            | Some q => Return (set_queues (<[chat_id := q ++ [current]]> (queues h)) h) tt
            | None => Raise h (KeyError chat_id)
            end
        | None => Return h tt
        end
      else
        let h := set_loop_modes (<[chat_id := loop_mode - 1]> (loop_modes h)) h in
        match current_songs h !! chat_id with
        | Some current =>
            match queues h !! chat_id with
            | Some q => Return (set_queues (<[chat_id := current :: q]> (queues h)) h) tt
            | None => Raise h (KeyError chat_id)
            end
        | None => Return h tt
        end in
    match requeued with
    | Return h _ => Raise h no_running_event_loop
    | Raise h e => Raise h e
    end
  else
    Raise h no_running_event_loop.

(** ** Commands *)

(** [search_and_play]: enqueue the track found for [query] and start playing
    when nothing is. *)
Definition search_and_play (w : Externals) (query : string) (ctx : Context)
    (platform : string) (video : bool) (h : MusicHandler) : Outcome Song :=
  let chat_id := _get_chat_id ctx platform in
  let h :=
    match queues h !! chat_id with
    | Some _ => h
    | None => set_queues (<[chat_id := []]> (queues h)) h
    end in
  let h := call (SearchSong query) h in
  match search_song w query with
  | None => Raise h (Exception "Song not found!")
  | Some song_info =>
      let song_data :=
        {| song_title := si_title song_info;
           song_url := si_url song_info;
           song_duration := si_duration song_info;
           song_thumbnail := default "" (si_thumbnail song_info);
           song_views := default "Unknown" (si_view_count song_info);
           song_uploader := default "Unknown" (si_uploader song_info);
           song_video := video;
           song_requested_by := _get_user_id ctx platform;
           song_platform := platform |} in
      let h := set_queues (<[chat_id := queue_of h chat_id ++ [song_data]]> (queues h)) h in
      match current_songs h !! chat_id with
      | Some _ => Return h song_data
      | None => Return (_play_next w chat_id ctx platform h) song_data
      end
  end.

(** One step of [random.shuffle]: [x[i], x[j] = x[j], x[i]]. *)
Definition swap {A} (x : list A) (i j : nat) : list A :=
  match x !! i, x !! j with
  | Some xi, Some xj => <[j := xi]> (<[i := xj]> x)
  | _, _ => x
  end.

(** The loop of [random.shuffle], for [i] from its argument down to 1, with
    [j = randbelow(i + 1)]. *)
Fixpoint shuffle_from {A} (randbelow : nat -> nat) (i : nat) (x : list A) : list A :=
  match i with
  | O => x
  | S i' => shuffle_from randbelow i' (swap x i (randbelow (S i)))
  end.

(** [random.shuffle(x)]: [for i in reversed(range(1, len(x)))].  [randbelow]
    gives the draws of the generator. *)
Definition shuffle {A} (randbelow : nat -> nat) (x : list A) : list A :=
  shuffle_from randbelow (length x - 1) x.

(** [shuffle_queue]. *)
Definition shuffle_queue (randbelow : nat -> nat) (ctx : Context)
    (platform : string) (h : MusicHandler) : MusicHandler * bool :=
  let chat_id := _get_chat_id ctx platform in
  match queues h !! chat_id with
  | Some (song :: rest) =>
      (set_queues (<[chat_id := shuffle randbelow (song :: rest)]> (queues h)) h, true)
  | _ => (h, false)
  end.

(** Replies of [skip_song]. *)
Inductive SkipReply := Skipped | PlayingNext | NothingToSkip.

(** [skip_song]. *)
Definition skip_song (w : Externals) (ctx : Context) (platform : string)
    (h : MusicHandler) : MusicHandler * SkipReply :=
  let chat_id := _get_chat_id ctx platform in
  let stopped :=
    if is_discord platform then
      match voice_clients h !! chat_id with
      | Some vc => if is_playing w vc then Some vc else None
      | None => None
      end
    else None in
  match stopped with
  | Some vc => (call (Stop vc) h, Skipped)
  | None =>
      if has_queue h chat_id then (_play_next w chat_id ctx platform h, PlayingNext)
      else (h, NothingToSkip)
  end.

(** [stop_playback]: forget the queue, the current song and the loop mode of
    the chat; on Discord also stop and close its stored voice connection. *)
Definition stop_playback (w : Externals) (ctx : Context) (platform : string)
    (h : MusicHandler) : Outcome unit :=
  let chat_id := _get_chat_id ctx platform in
  let h := set_queues (delete chat_id (queues h)) h in
  let h := set_current_songs (delete chat_id (current_songs h)) h in
  let h := set_loop_modes (delete chat_id (loop_modes h)) h in
  if is_discord platform then
    match voice_clients h !! chat_id with
    | Some vc =>
        let h := if is_playing w vc || is_paused w vc then call (Stop vc) h else h in
        let h := call (Disconnect vc) h in
        if disconnect w vc then
          Return (set_voice_clients (delete chat_id (voice_clients h)) h) tt
        else Raise h (Exception "disconnect failed")
    | None => Return h tt
    end
  else Return h tt.

(** [pause_playback]. *)
Definition pause_playback (w : Externals) (ctx : Context) (platform : string)
    (h : MusicHandler) : MusicHandler * bool :=
  let chat_id := _get_chat_id ctx platform in
  if is_discord platform then
    match voice_clients h !! chat_id with
    | Some vc => if is_playing w vc then (call (Pause vc) h, true) else (h, false)
    | None => (h, false)
    end
  else (h, false).

(** [resume_playback]. *)
Definition resume_playback (w : Externals) (ctx : Context) (platform : string)
    (h : MusicHandler) : MusicHandler * bool :=
  let chat_id := _get_chat_id ctx platform in
  if is_discord platform then
    match voice_clients h !! chat_id with
    | Some vc => if is_paused w vc then (call (Resume vc) h, true) else (h, false)
    | None => (h, false)
    end
  else (h, false).

(** Replies of [set_loop_mode]: the rejection message, or the confirmation
    for the mode that was stored. *)
Inductive LoopReply := MustBeBetween0And10 | LoopModeSetTo (mode : Z).

(** [set_loop_mode]; [mode = None] toggles between off and queue loop. *)
Definition set_loop_mode (ctx : Context) (mode : option Z) (platform : string)
    (h : MusicHandler) : MusicHandler * LoopReply :=
  let chat_id := _get_chat_id ctx platform in
  let mode :=
    match mode with
    | Some m => m
    | None => if loop_mode_of h chat_id =? 0 then 2 else 0
    end in
  if (mode <? 0) || (10 <? mode) then (h, MustBeBetween0And10)
  else (set_loop_modes (<[chat_id := mode]> (loop_modes h)) h, LoopModeSetTo mode).

(** [set_playback_speed]: the comparisons are those of IEEE 754 doubles. *)
Definition set_playback_speed (w : Externals) (ctx : Context) (speed : float)
    (platform : string) (h : MusicHandler) : Outcome bool :=
  let chat_id := _get_chat_id ctx platform in
  if PrimFloat.ltb speed 0.5%float || PrimFloat.ltb 2.0%float speed then
    Return h false
  else
    let h := set_playback_speeds (<[chat_id := speed]> (playback_speeds h)) h in
    match current_songs h !! chat_id with
    | Some current_song =>
        match queues h !! chat_id with
        | None => Raise h (KeyError chat_id)
        | Some q =>
            let h := set_queues (<[chat_id := current_song :: q]> (queues h)) h in
            if is_discord platform then
              match voice_clients h !! chat_id with
              | Some vc =>
                  if is_playing w vc then Return (call (Stop vc) h) true
                  else Return h true
              | None => Return h true
              end
            else Return h true
        end
    | None => Return h true
    end.

(** [seek_position]: a placeholder that only checks that something plays. *)
Definition seek_position (ctx : Context) (position : Z) (platform : string)
    (h : MusicHandler) : bool :=
  let chat_id := _get_chat_id ctx platform in
  bool_decide (is_Some (current_songs h !! chat_id)).

(** [get_queue]. *)
Definition get_queue (ctx : Context) (platform : string) (h : MusicHandler)
    : option Song * list Song * Z * float :=
  let chat_id := _get_chat_id ctx platform in
  (current_songs h !! chat_id, queue_of h chat_id, loop_mode_of h chat_id,
   speed_of h chat_id).


(** * Vocabulary of the specification *)

(** The state after [n] completion callbacks in a row, as long as none
    raises. *)
Fixpoint completions (w : Externals) (ctx : Context) (chat_id : Z) (n : nat)
    (h : MusicHandler) : Outcome unit :=
  match n with
  | O => Return h tt
  | S n =>
      match completions w ctx chat_id n h with
      | Return h _ => after_playing w ctx chat_id h
      | Raise h e => Raise h e
      end
  end.

(** Everything that can happen to a handler: the commands of the dispatcher
    and the end of a track. *)
Inductive Command :=
  | CmdPlay (query : string) (video : bool)
  | CmdSkip
  | CmdStop
  | CmdPause
  | CmdResume
  | CmdShuffle (randbelow : nat -> nat)
  | CmdLoop (mode : option Z)
  | CmdSpeed (speed : float)
  | CmdSeek (position : Z)
  | TrackEnd.

(** The state a command leaves, whether it returned or raised.  The
    completion callback belongs to the chat [_play_discord] installed it
    for. *)
Definition run (w : Externals) (ctx : Context) (platform : string)
    (c : Command) (h : MusicHandler) : MusicHandler :=
  match c with
  | CmdPlay query video => state_of (search_and_play w query ctx platform video h)
  | CmdSkip => (skip_song w ctx platform h).1
  | CmdStop => state_of (stop_playback w ctx platform h)
  | CmdPause => (pause_playback w ctx platform h).1
  | CmdResume => (resume_playback w ctx platform h).1
  | CmdShuffle randbelow => (shuffle_queue randbelow ctx platform h).1
  | CmdLoop mode => (set_loop_mode ctx mode platform h).1
  | CmdSpeed speed => state_of (set_playback_speed w ctx speed platform h)
  | CmdSeek position => h
  | TrackEnd => state_of (after_playing w ctx (_get_chat_id ctx "discord") h)
  end.

(** What a user of chat [chat_id] sees: the current track, the queue and the
    loop mode. *)
Definition now_playing (h : MusicHandler) (chat_id : Z) : option Song * list Song * Z :=
  (current_songs h !! chat_id, queue_of h chat_id, loop_mode_of h chat_id).

(** A chat is idle when it has no current track, no queued track and no
    stored voice client. *)
Definition idle (h : MusicHandler) (chat_id : Z) : Prop :=
  current_songs h !! chat_id = None /\ has_queue h chat_id = false /\
  voice_clients h !! chat_id = None.

(** A chat with no stored voice client has no current track. *)
Definition handle_invariant (h : MusicHandler) : Prop :=
  forall chat_id,
    voice_clients h !! chat_id = None -> current_songs h !! chat_id = None.

(** Whether the [try] block of [_play_next] gets [song] playing. *)
Definition starts (w : Externals) (ctx : Context) (platform : string)
    (chat_id : Z) (h : MusicHandler) (song : Song) : bool :=
  negb (raised (start_playback w ctx platform chat_id song h)).

(** The URLs [_get_audio_source] was asked to resolve: one per start
    attempt. *)
Definition attempted (calls : list DriverCall) : list string :=
  omap (fun c => match c with ExtractInfo u => Some u | _ => None end) calls.

(** The driver starts every track it is asked to start in this chat. *)
Definition always_starts (w : Externals) (ctx : Context) (chat_id : Z) : Prop :=
  forall song h, raised (start_playback w ctx "discord" chat_id song h) = false.

(** One turn of a playlist: the track that was playing goes to the back and
    the next one comes to the front. *)
Definition rotate1 (l : list Song) : list Song :=
  match l with
  | [] => []
  | current :: queue => queue ++ [current]
  end.

(** * Concrete chats used in the examples *)

Definition track (name : string) : Song :=
  {| song_title := name; song_url := "https://youtu.be/" +:+ name;
     song_duration := 180; song_thumbnail := ""; song_views := "Unknown";
     song_uploader := "Unknown"; song_video := false; song_requested_by := 1;
     song_platform := "discord" |}.

Definition trackA : Song := track "A".
Definition trackB : Song := track "B".
Definition trackC : Song := track "C".
Definition trackD : Song := track "D".

(** A guild whose bot already sits in a voice channel. *)
Definition guild7 : Context :=
  {| guild_id := Some 7; author_id := 1; effective_chat_id := 7;
     effective_user_id := 1; voice_client := Some (VC 70);
     author_voice := Some 700 |}.

(** Collaborators that resolve a URL exactly when [resolves] says so and
    otherwise never fail. *)
Definition externals (resolves : string -> bool) : Externals :=
  {| extract_info := fun u =>
       if resolves u then Some {| info_url := Some ("stream:" +:+ u); info_entries := [] |}
       else None;
     search_song := fun q =>
       Some {| si_title := q; si_url := "https://youtu.be/" +:+ q; si_duration := 180;
               si_thumbnail := None; si_view_count := None; si_uploader := None |};
     connect := fun channel => Some (VC channel);
     play := fun _ _ _ => true;
     disconnect := fun _ => true;
     is_playing := fun _ => true;
     is_paused := fun _ => false;
     pytgcalls := fun _ => true |}.

Definition healthy : Externals := externals (fun _ => true).
Definition broken : Externals := externals (fun _ => false).

(** Chat 7 playing [current] with [queue] behind it and loop mode [mode]. *)
Definition playing (current : Song) (queue : list Song) (mode : Z) : MusicHandler :=
  {| queues := {[ 7 := queue ]}; current_songs := {[ 7 := current ]};
     loop_modes := {[ 7 := mode ]}; playback_speeds := ∅;
     voice_clients := {[ 7 := VC 70 ]}; driver_calls := [] |}.

(** * Frame lemmas *)

Lemma handler_eq (h1 h2 : MusicHandler) :
  queues h1 = queues h2 -> current_songs h1 = current_songs h2 ->
  loop_modes h1 = loop_modes h2 -> playback_speeds h1 = playback_speeds h2 ->
  voice_clients h1 = voice_clients h2 -> driver_calls h1 = driver_calls h2 ->
  h1 = h2.
Proof. destruct h1, h2; simpl; congruence. Qed.

(** A start, failed or not, leaves the queues alone; this is also why
    [_play_next] terminates. *)
Lemma start_playback_queues w ctx platform chat_id song h :
  queues (state_of (start_playback w ctx platform chat_id song h)) = queues h.
Proof.
  unfold start_playback, _get_audio_source, _play_discord, _play_telegram.
  repeat case_match; simplify_eq; reflexivity.
Qed.

Lemma start_playback_frame w ctx platform chat_id song h :
  let h' := state_of (start_playback w ctx platform chat_id song h) in
  current_songs h' = current_songs h /\ loop_modes h' = loop_modes h /\
  playback_speeds h' = playback_speeds h.
Proof.
  unfold start_playback, _get_audio_source, _play_discord, _play_telegram.
  repeat case_match; simplify_eq; auto.
Qed.

Lemma attempted_app (l1 l2 : list DriverCall) :
  attempted (l1 ++ l2) = attempted l1 ++ attempted l2.
Proof. apply omap_app. Qed.

Lemma start_playback_attempted w ctx platform chat_id song h :
  attempted (driver_calls (state_of (start_playback w ctx platform chat_id song h)))
  = attempted (driver_calls h) ++ [song_url song].
Proof.
  unfold start_playback, _get_audio_source, _play_discord, _play_telegram.
  repeat case_match; simplify_eq; simpl; rewrite ?attempted_app; simpl;
    rewrite <- ?app_assoc; simpl; rewrite ?app_nil_r; reflexivity.
Qed.

(** On Discord a start that returns has stored the voice connection. *)
Lemma start_playback_voice w ctx chat_id song h h' :
  start_playback w ctx "discord" chat_id song h = Return h' tt ->
  exists vc, voice_clients h' = <[chat_id := vc]> (voice_clients h).
Proof.
  unfold start_playback, _get_audio_source, _play_discord. simpl.
  repeat case_match; intros; simplify_eq; simpl; eauto.
Qed.

(** Whether a track starts depends on the handler only through the stored
    speeds, which end up in the player's options. *)
Lemma starts_speeds w ctx platform chat_id h1 h2 song :
  playback_speeds h1 = playback_speeds h2 ->
  starts w ctx platform chat_id h1 song = starts w ctx platform chat_id h2 song.
Proof.
  intros H. unfold starts, start_playback, _get_audio_source. simpl.
  assert (forall h h' src, playback_speeds h = playback_speeds h' ->
            raised (_play_discord w ctx src chat_id h) =
            raised (_play_discord w ctx src chat_id h')) as PD.
  { intros h h' src E. unfold _play_discord, atempo, speed_of.
    destruct (voice_client ctx);
      [| destruct (author_voice ctx) as [channel |];
         [destruct (connect w channel) |]];
      simpl; rewrite ?E; try reflexivity;
      match goal with |- context [play ?a ?b ?c ?d] => destruct (play a b c d) end;
      reflexivity. }
  assert (forall h h', raised (_play_telegram w ctx song chat_id h) =
                       raised (_play_telegram w ctx song chat_id h')) as T.
  { intros h h'. unfold _play_telegram. destruct (pytgcalls w song); reflexivity. }
  destruct (extract_info w (song_url song)) as [info |]; [| reflexivity].
  destruct (info_url info); [| destruct (info_entries info); [reflexivity |]];
    (destruct (is_discord platform); [f_equal; apply PD; exact H | f_equal; apply T]).
Qed.

(** The method, read as its Python text: one equation for the whole body. *)
Lemma _play_next_eq w chat_id ctx platform h :
  _play_next w chat_id ctx platform h =
  match queues h !! chat_id with
  | Some (song :: rest) =>
      match start_playback w ctx platform chat_id song
              (take_head chat_id song rest h) with
      | Return h' _ => h'
      | Raise h' _ =>
          if has_queue h' chat_id then _play_next w chat_id ctx platform h'
          else h'
      end
  | _ => pop_current chat_id h
  end.
Proof.
  funelim (_play_next w chat_id ctx platform h).
  all: clear Heqcall.
  all: repeat match goal with
       | E : ?x = _ |- context [?x] => rewrite E
       end; reflexivity.
Qed.

Lemma _play_next_frame w chat_id ctx platform h :
  loop_modes (_play_next w chat_id ctx platform h) = loop_modes h /\
  playback_speeds (_play_next w chat_id ctx platform h) = playback_speeds h.
Proof.
  funelim (_play_next w chat_id ctx platform h); try clear Heqcall; auto.
  all: match goal with
       | E : start_playback ?w ?ctx ?p ?c ?s ?h0 = _ |- _ =>
           pose proof (start_playback_frame w ctx p c s h0) as F;
           rewrite E in F; simpl in F
       end.
  all: intuition congruence.
Qed.

Lemma _play_next_no_queue w chat_id ctx platform h :
  has_queue h chat_id = false ->
  _play_next w chat_id ctx platform h = pop_current chat_id h.
Proof.
  intros H. rewrite _play_next_eq. unfold has_queue in H.
  repeat case_match; simplify_eq; reflexivity.
Qed.

Lemma _play_next_started w chat_id ctx platform h song rest :
  queues h !! chat_id = Some (song :: rest) ->
  raised (start_playback w ctx platform chat_id song
            (take_head chat_id song rest h)) = false ->
  _play_next w chat_id ctx platform h =
  state_of (start_playback w ctx platform chat_id song
              (take_head chat_id song rest h)).
Proof.
  intros Hq Hs. rewrite _play_next_eq, Hq.
  destruct (start_playback _ _ _ _ _ _); simpl in *; congruence.
Qed.

(** What [stop_playback] leaves behind, whether or not the disconnect
    raised. *)
Lemma stop_playback_cleared w ctx platform h :
  let chat_id := _get_chat_id ctx platform in
  let h' := state_of (stop_playback w ctx platform h) in
  queues h' = delete chat_id (queues h) /\
  current_songs h' = delete chat_id (current_songs h) /\
  loop_modes h' = delete chat_id (loop_modes h) /\
  playback_speeds h' = playback_speeds h.
Proof.
  unfold stop_playback. repeat case_match; simpl; auto.
Qed.

(** * [set_playback_speed] *)

(** Every speed that compares below 0.5 or above 2.0 (3.0 for one, and the
    infinities) is rejected: [set_playback_speed] returns [False] and hands
    back the very state it was given, so the stored speed, the current track
    and the queue are as before the call, and no driver was called. *)
Theorem set_playback_speed_out_of_range w ctx (speed : float) platform h :
  PrimFloat.ltb speed 0.5%float = true \/ PrimFloat.ltb 2.0%float speed = true ->
  set_playback_speed w ctx speed platform h = Return h false.
Proof.
  intros [H | H]; unfold set_playback_speed; rewrite H; try reflexivity.
  now rewrite orb_true_r.
Qed.

Lemma set_playback_speed_out_of_range_witness :
  (PrimFloat.ltb 3.0%float 0.5%float = true \/
   PrimFloat.ltb 2.0%float 3.0%float = true) /\
  set_playback_speed healthy guild7 3.0%float "discord" (playing trackA [trackB] 0) =
  Return (playing trackA [trackB] 0) false.
Proof.
  split; [right; reflexivity |].
  apply (set_playback_speed_out_of_range healthy guild7 3.0%float "discord"
           (playing trackA [trackB] 0)).
  right; reflexivity.
Defined.

(** Both comparisons of the guard are false on a NaN, which is therefore
    stored like a speed in range. *)
Lemma set_playback_speed_nan :
  playback_speeds
    (state_of (set_playback_speed healthy guild7 PrimFloat.nan "discord"
                 (playing trackA [trackB] 0))) !! 7 = Some PrimFloat.nan.
Proof. reflexivity. Qed.

(** C6, on the code: a NaN is a speed outside [0.5, 2.0] (it is neither at
    least 0.5 nor at most 2.0), and [float] gives one for the argument
    [nan] of the speed command.  The guard [speed < 0.5 or speed > 2.0] is
    false on it, so [set_playback_speed] does not reject it: with track A
    playing in chat 7 and B queued, the call returns [True], stores the NaN
    as the speed of the chat, puts A back in front of B in the queue and asks
    the driver to stop the player. *)
Theorem set_playback_speed_accepts_nan :
  let h := playing trackA [trackB] 0 in
  let r := set_playback_speed healthy guild7 PrimFloat.nan "discord" h in
  PrimFloat.leb 0.5%float PrimFloat.nan = false /\
  PrimFloat.leb PrimFloat.nan 2.0%float = false /\
  PrimFloat.ltb PrimFloat.nan 0.5%float = false /\
  PrimFloat.ltb 2.0%float PrimFloat.nan = false /\
  r = Return (state_of r) true /\
  playback_speeds h !! 7 = None /\
  playback_speeds (state_of r) !! 7 = Some PrimFloat.nan /\
  now_playing h 7 = (Some trackA, [trackB], 0) /\
  now_playing (state_of r) 7 = (Some trackA, [trackA; trackB], 0) /\
  driver_calls h = [] /\
  driver_calls (state_of r) = [Stop (VC 70)].
Proof. repeat split. Qed.

(** * [stop_playback] *)

(** C7: a completion callback of chat X that fires once [stop_playback] has
    cleared X finds no loop mode and no queue; it returns the state as it
    found it, so it sets no current track and queues nothing. *)
Theorem stale_completion_after_stop w ctx platform h w' ctx' :
  let chat_id := _get_chat_id ctx platform in
  let h' := state_of (stop_playback w ctx platform h) in
  after_playing w' ctx' chat_id h' = Return h' tt /\
  current_songs h' !! chat_id = None /\ queues h' !! chat_id = None.
Proof.
  intros chat_id h'.
  destruct (stop_playback_cleared w ctx platform h) as (Hq & Hc & Hl & _).
  fold chat_id h' in Hq, Hc, Hl.
  assert (queues h' !! chat_id = None) as Hq' by (rewrite Hq; apply lookup_delete_eq).
  assert (current_songs h' !! chat_id = None) as Hc' by (rewrite Hc; apply lookup_delete_eq).
  assert (loop_modes h' !! chat_id = None) as Hl' by (rewrite Hl; apply lookup_delete_eq).
  split; [| auto].
  unfold after_playing, loop_mode_of. rewrite Hl'. simpl.
  rewrite _play_next_no_queue by (unfold has_queue; now rewrite Hq').
  f_equal. unfold pop_current. apply handler_eq; simpl; try reflexivity.
  now apply delete_id.
Qed.

(** C9 as the specification words it fails: an idle chat whose loop mode is
    2 is idle after [stop_playback] too, but its loop mode is gone. *)
Lemma stop_idle_resets_loop_mode :
  let h := set_loop_modes {[ 7 := 2 ]} init in
  idle h 7 /\
  exists h', stop_playback healthy guild7 "discord" h = Return h' tt /\
    get_queue guild7 "discord" h = (None, [], 2, 1.0%float) /\
    get_queue guild7 "discord" h' = (None, [], 0, 1.0%float).
Proof.
  split; [repeat split |].
  eexists. split; [reflexivity |]. split; reflexivity.
Qed.

(** C9, amended: on an idle chat [stop_playback] returns without raising and
    without calling a driver; the chat is still idle, its current track,
    queue, speed and voice client read as before, and so does every other
    chat.  Only the loop mode of the chat is reset to 0, so the call is a
    no-op exactly when the loop mode was 0 already. *)
Theorem stop_playback_idle w ctx platform h :
  idle h (_get_chat_id ctx platform) ->
  exists h',
    stop_playback w ctx platform h = Return h' tt /\
    idle h' (_get_chat_id ctx platform) /\
    current_songs h' = current_songs h /\
    (forall c, queue_of h' c = queue_of h c) /\
    playback_speeds h' = playback_speeds h /\
    voice_clients h' = voice_clients h /\
    driver_calls h' = driver_calls h /\
    loop_modes h' = delete (_get_chat_id ctx platform) (loop_modes h) /\
    (if loop_mode_of h (_get_chat_id ctx platform) =? 0
     then forall ctx' p, get_queue ctx' p h' = get_queue ctx' p h
     else loop_mode_of h' (_get_chat_id ctx platform) = 0).
Proof.
  set (chat_id := _get_chat_id ctx platform).
  intros (Hc & Hq & Hv).
  assert (forall c, default [] (delete chat_id (queues h) !! c) = queue_of h c) as Hqs.
  { intros c. unfold queue_of. destruct (decide (chat_id = c)) as [<- | Hne].
    - rewrite lookup_delete_eq. unfold has_queue in Hq.
      destruct (queues h !! chat_id) as [[|] |]; simpl in *; congruence.
    - now rewrite lookup_delete_ne. }
  assert (exists h', stop_playback w ctx platform h = Return h' tt /\
            voice_clients h' = voice_clients h /\ driver_calls h' = driver_calls h
            /\ h' = state_of (stop_playback w ctx platform h)) as (h' & E & Ev & Ed & Es).
  { unfold stop_playback. fold chat_id. simpl. rewrite Hv.
    destruct (is_discord platform); eexists; repeat split. }
  destruct (stop_playback_cleared w ctx platform h) as (Eq & Ec & El & Ep).
  fold chat_id in Eq, Ec, El. rewrite <- Es in Eq, Ec, El, Ep.
  assert (current_songs h' = current_songs h) as Ec'
    by (rewrite Ec; now apply delete_id).
  assert (forall c, queue_of h' c = queue_of h c) as Eq'
    by (intros c; unfold queue_of at 1; rewrite Eq; apply Hqs).
  exists h'. repeat split; auto.
  - now rewrite Ec'.
  - unfold has_queue. rewrite Eq, lookup_delete_eq. reflexivity.
  - now rewrite Ev.
  - destruct (Z.eqb_spec (loop_mode_of h chat_id) 0) as [H0 | H0].
    + intros ctx' p. unfold get_queue, speed_of, loop_mode_of.
      rewrite Ec', Eq', Ep, El. do 2 f_equal.
      destruct (decide (chat_id = _get_chat_id ctx' p)) as [E' | Hne].
      * rewrite <- E', lookup_delete_eq. symmetry. exact H0.
      * now rewrite lookup_delete_ne.
    + unfold loop_mode_of. rewrite El, lookup_delete_eq. reflexivity.
Qed.

Lemma stop_playback_idle_witness :
  idle init (_get_chat_id guild7 "discord") /\
  exists h', stop_playback healthy guild7 "discord" init = Return h' tt /\
             idle h' (_get_chat_id guild7 "discord").
Proof.
  assert (idle init (_get_chat_id guild7 "discord")) as I by (repeat split).
  split; [exact I |].
  destruct (stop_playback_idle healthy guild7 "discord" init I) as (h' & E & I' & _).
  exists h'. split; assumption.
Defined.

(** C10: [stop_playback] removes the queue, the current track and the loop
    mode of the chat and leaves [playback_speeds] as it was; the next
    [search_and_play] in that chat on Discord therefore hands the player the
    [atempo] filter of the speed [s] stored before the stop, not the default
    1.0. *)
Theorem stop_keeps_speed w ctx h (s : float) w2 ctx2 query video si info src vc :
  let chat_id := _get_chat_id ctx "discord" in
  let h' := state_of (stop_playback w ctx "discord" h) in
  playback_speeds h !! chat_id = Some s ->
  _get_chat_id ctx2 "discord" = chat_id ->
  search_song w2 query = Some si ->
  extract_info w2 (si_url si) = Some info ->
  info_url info = Some src ->
  voice_client ctx2 = Some vc ->
  queues h' !! chat_id = None /\ current_songs h' !! chat_id = None /\
  loop_modes h' !! chat_id = None /\
  playback_speeds h' = playback_speeds h /\
  driver_calls (state_of (search_and_play w2 query ctx2 "discord" video h')) =
    driver_calls h' ++
    [SearchSong query; ExtractInfo (si_url si);
     Play vc src (if PrimFloat.eqb s 1.0%float then None else Some s)].
Proof.
  intros chat_id h' Hs Hchat Hsearch Hinfo Hsrc Hvc.
  destruct (stop_playback_cleared w ctx "discord" h) as (Hq & Hc & Hl & Hp).
  fold chat_id h' in Hq, Hc, Hl, Hp.
  assert (queues h' !! chat_id = None) as Hq' by (rewrite Hq; apply lookup_delete_eq).
  assert (current_songs h' !! chat_id = None) as Hc' by (rewrite Hc; apply lookup_delete_eq).
  assert (loop_modes h' !! chat_id = None) as Hl' by (rewrite Hl; apply lookup_delete_eq).
  repeat split; auto.
  unfold search_and_play. rewrite Hchat, Hq', Hsearch. simpl.
  rewrite Hc'. simpl.
  rewrite _play_next_eq. unfold queue_of. simpl.
  rewrite !lookup_insert_eq. simpl.
  unfold start_playback, _get_audio_source. simpl. rewrite Hinfo, Hsrc.
  unfold _play_discord. simpl. rewrite Hvc.
  unfold atempo, speed_of. simpl. rewrite Hp, Hs. simpl.
  destruct (PrimFloat.eqb s 1.0%float); simpl;
    destruct (play w2 vc src _); simpl; unfold has_queue; simpl;
    rewrite ?lookup_insert_eq; simpl; rewrite <- ?app_assoc; reflexivity.
Qed.

Lemma stop_keeps_speed_witness :
  let h := set_playback_speeds {[ 7 := 1.5%float ]} (playing trackA [trackB] 0) in
  let h' := state_of (stop_playback healthy guild7 "discord" h) in
  playback_speeds h' !! 7 = Some 1.5%float /\
  driver_calls (state_of (search_and_play healthy "C" guild7 "discord" false h')) =
    driver_calls h' ++
    [SearchSong "C"; ExtractInfo "https://youtu.be/C";
     Play (VC 70) "stream:https://youtu.be/C" (Some 1.5%float)].
Proof.
  pose proof (stop_keeps_speed healthy guild7
                (set_playback_speeds {[ 7 := 1.5%float ]} (playing trackA [trackB] 0))
                1.5%float healthy guild7 "C" false
                {| si_title := "C"; si_url := "https://youtu.be/C";
                   si_duration := 180; si_thumbnail := None;
                   si_view_count := None; si_uploader := None |}
                {| info_url := Some "stream:https://youtu.be/C"; info_entries := [] |}
                "stream:https://youtu.be/C" (VC 70)
                eq_refl eq_refl eq_refl eq_refl eq_refl eq_refl)
    as (_ & _ & _ & _ & Hcalls).
  split; [reflexivity | exact Hcalls].
Defined.

(** * [shuffle_queue] *)

Lemma cons_insert_perm {X} (l : list X) (j : nat) (a b : X) :
  l !! j = Some b -> b :: <[j := a]> l ≡ₚ a :: l.
Proof.
  revert j. induction l as [| x l IH]; intros [| j] H; simplify_eq/=.
  - apply perm_swap.
  - rewrite (perm_swap x b), (IH j H). apply perm_swap.
Qed.

Lemma swap_perm {X} (x : list X) (i j : nat) : swap x i j ≡ₚ x.
Proof.
  unfold swap.
  destruct (x !! i) as [xi |] eqn:Hi; [| reflexivity].
  destruct (x !! j) as [xj |] eqn:Hj; [| reflexivity].
  revert i j Hi Hj.
  induction x as [| a l IH]; intros [| i] [| j] Hi Hj; simplify_eq/=.
  - reflexivity.
  - now apply cons_insert_perm.
  - now apply cons_insert_perm.
  - now rewrite (IH i j).
Qed.

Lemma shuffle_perm {X} (randbelow : nat -> nat) (x : list X) :
  shuffle randbelow x ≡ₚ x.
Proof.
  unfold shuffle. generalize (length x - 1)%nat as i. intros i. revert x.
  induction i as [| i IH]; intros x; simpl; [reflexivity |].
  rewrite IH. apply swap_perm.
Qed.

(** A generator whose draws send [trackA; trackB; trackC] to [trackC; trackA; trackB]. *)
Example shuffle_ABC :
  shuffle (fun n => match n with 3%nat => 1%nat | _ => 0%nat end) [trackA; trackB; trackC]
  = [trackC; trackA; trackB].
Proof. reflexivity. Qed.

(** Draws that [random.shuffle] can get: [randbelow(n)] is below [n]. *)
Definition valid_draws (randbelow : nat -> nat) : Prop :=
  forall n, (randbelow (S n) <= n)%nat.

Lemma length_swap {X} (x : list X) (i j : nat) : length (swap x i j) = length x.
Proof. unfold swap. repeat case_match; rewrite ?length_insert; reflexivity. Qed.

Lemma swap_app_l {X} (x l : list X) (i j : nat) :
  (i < length x)%nat -> (j < length x)%nat ->
  swap (x ++ l) i j = swap x i j ++ l.
Proof.
  intros Hi Hj. unfold swap. rewrite !lookup_app_l by done.
  destruct (x !! i) as [xi |] eqn:Ei; [| reflexivity].
  destruct (x !! j) as [xj |] eqn:Ej; [| reflexivity].
  rewrite (insert_app_l x l i) by done.
  rewrite insert_app_l by (now rewrite length_insert). reflexivity.
Qed.

(** The loop below index [i] does not reach what lies beyond it. *)
Lemma shuffle_from_app {X} (randbelow : nat -> nat) (i : nat) (x l : list X) :
  valid_draws randbelow -> (i < length x)%nat ->
  shuffle_from randbelow i (x ++ l) = shuffle_from randbelow i x ++ l.
Proof.
  intros Hv. revert x. induction i as [| i IH]; intros x Hi; [reflexivity |].
  simpl. pose proof (Hv (S i)) as Hj.
  rewrite swap_app_l by lia.
  apply IH. rewrite length_swap. lia.
Qed.

(** The loop from index [i] down to 1 reads the draws for the bounds 2 to
    [i + 1] only. *)
Lemma shuffle_from_ext {X} (rb1 rb2 : nat -> nat) (i : nat) (x : list X) :
  (forall k, (1 <= k <= i)%nat -> rb1 (S k) = rb2 (S k)) ->
  shuffle_from rb1 i x = shuffle_from rb2 i x.
Proof.
  revert x. induction i as [| i IH]; intros x H; [reflexivity |].
  simpl. rewrite (H (S i)) by lia. apply IH. intros k Hk. apply H. lia.
Qed.

(** The first exchange of [random.shuffle]: the last place gets the element
    the draw picks, for good. *)
Lemma swap_last {X} (x : list X) (a b : X) (j : nat) :
  (x ++ [a]) !! j = Some b ->
  exists x', swap (x ++ [a]) (length x) j = x' ++ [b] /\ length x' = length x.
Proof.
  intros Hj. unfold swap.
  assert ((x ++ [a]) !! length x = Some a) as Ha.
  { rewrite lookup_app_r by lia. now rewrite Nat.sub_diag. }
  rewrite Ha, Hj.
  destruct (decide (j < length x)%nat) as [Hlt | Hge].
  - rewrite lookup_app_l in Hj by done.
    exists (<[j := a]> x). split; [| apply length_insert].
    replace (length x) with (length x + 0)%nat at 1 by lia.
    rewrite insert_app_r. simpl. now rewrite insert_app_l.
  - assert (j = length x) as ->.
    { apply lookup_lt_Some in Hj. rewrite length_app in Hj. simpl in Hj. lia. }
    rewrite Ha in Hj. injection Hj as <-.
    exists x. split; [| reflexivity].
    rewrite list_insert_id by (now rewrite list_insert_id).
    now rewrite list_insert_id.
Qed.

Lemma shuffle_snoc {X} (randbelow : nat -> nat) (x x' : list X) (a b : X) :
  valid_draws randbelow ->
  swap (x ++ [a]) (length x) (randbelow (S (length x))) = x' ++ [b] ->
  length x' = length x ->
  shuffle randbelow (x ++ [a]) = shuffle randbelow x' ++ [b].
Proof.
  intros Hv Hs Hl. unfold shuffle. rewrite length_app. simpl.
  replace (length x + 1 - 1)%nat with (length x) by lia.
  destruct (length x) as [| n] eqn:En.
  - destruct x; [| discriminate]. destruct x'; [| discriminate].
    simpl in *. unfold swap in Hs. simpl in Hs.
    destruct (randbelow 1%nat) as [| k] eqn:Ek; simpl in Hs.
    + exact Hs.
    + pose proof (Hv 0%nat). lia.
  - simpl. rewrite Hs. rewrite shuffle_from_app by (try done; lia).
    rewrite Hl. now replace (S n - 1)%nat with n by lia.
Qed.

(** Every order of the list is the result of [random.shuffle] for some
    draws. *)
Lemma shuffle_reaches {X} (x y : list X) :
  x ≡ₚ y -> exists randbelow, valid_draws randbelow /\ shuffle randbelow x = y.
Proof.
  revert x. induction y as [| b y IH] using rev_ind; intros x Hp.
  - apply Permutation_nil_r in Hp as ->.
    exists (fun _ => 0%nat). split; [intros n; simpl; lia | reflexivity].
  - destruct x as [| a0 x0] using rev_ind.
    { symmetry in Hp. apply Permutation_nil_r in Hp. now destruct y. }
    clear IHx0. rename x0 into x, a0 into a.
    assert (exists j, (x ++ [a]) !! j = Some b) as (j & Hj).
    { apply list_elem_of_lookup. rewrite Hp. set_solver. }
    destruct (swap_last x a b j Hj) as (x' & Hs & Hl).
    assert (x' ≡ₚ y) as Hp'.
    { apply (inj (.++ [b])). rewrite <- Hs, swap_perm. exact Hp. }
    destruct (IH x' Hp') as (rb' & Hv' & Hy).
    exists (fun k => if decide (k = S (length x)) then j else rb' k).
    assert (valid_draws (fun k => if decide (k = S (length x)) then j else rb' k)) as Hv.
    { intros n. case_decide as E; [| apply Hv'].
      apply lookup_lt_Some in Hj. rewrite length_app in Hj. simpl in Hj. lia. }
    split; [exact Hv |].
    rewrite (shuffle_snoc _ x x' a b Hv); [| now rewrite decide_True | exact Hl].
    rewrite <- Hy. f_equal. unfold shuffle. apply shuffle_from_ext.
    intros k Hk. rewrite decide_False by (rewrite Hl in Hk; lia). reflexivity.
Qed.

(** The draws of [shuffle_ABC] through [shuffle_queue]: the stored queue of
    the chat is reordered, and the call returns [True]. *)
Example shuffle_queue_ABC :
  let draws := fun n => match n with 3%nat => 1%nat | _ => 0%nat end in
  let r := shuffle_queue draws guild7 "discord" (playing trackD [trackA; trackB; trackC] 0) in
  r.2 = true /\
  queues r.1 !! 7 = Some [trackC; trackA; trackB] /\
  current_songs r.1 !! 7 = Some trackD.
Proof. repeat split. Qed.

(** C8: on a chat whose queue is empty or absent [shuffle_queue] returns
    [False] and the state it was given; on a non-empty queue it returns
    [True], the new queue is the old one reordered by the exchanges of
    [random.shuffle] under the draws of the call, hence a permutation of the
    old one, every order of the old queue is the new queue for some draws
    that [random.shuffle] can get, and the current tracks, the queues of the
    other chats and every other dictionary are as before. *)
Theorem shuffle_queue_spec randbelow ctx platform h :
  let chat_id := _get_chat_id ctx platform in
  let r := shuffle_queue randbelow ctx platform h in
  if has_queue h chat_id then
    r.2 = true /\
    queue_of r.1 chat_id = shuffle randbelow (queue_of h chat_id) /\
    queue_of r.1 chat_id ≡ₚ queue_of h chat_id /\
    (forall target, queue_of h chat_id ≡ₚ target ->
       exists draws, valid_draws draws /\
         (shuffle_queue draws ctx platform h).2 = true /\
         queue_of (shuffle_queue draws ctx platform h).1 chat_id = target) /\
    delete chat_id (queues r.1) = delete chat_id (queues h) /\
    current_songs r.1 = current_songs h /\
    loop_modes r.1 = loop_modes h /\
    playback_speeds r.1 = playback_speeds h /\
    voice_clients r.1 = voice_clients h /\
    driver_calls r.1 = driver_calls h
  else r = (h, false).
Proof.
  intros chat_id r. subst r. unfold shuffle_queue, has_queue, queue_of.
  fold chat_id.
  destruct (queues h !! chat_id) as [[| song rest] |] eqn:Hq; try reflexivity.
  simpl. rewrite lookup_insert_eq. simpl.
  repeat split; try reflexivity.
  - apply (shuffle_perm randbelow (song :: rest)).
  - intros target Hp.
    destruct (shuffle_reaches (song :: rest) target Hp) as (draws & Hv & Hs).
    exists draws. simpl. rewrite lookup_insert_eq. simpl. auto.
  - apply delete_insert_eq.
Qed.

(** * Failed starts in [_play_next] *)

(** The claim of C3 as the specification words it fails: with trackB, trackC and trackD
    queued and a resolver that fails on every track, the completion of trackA
    makes [_play_next] try trackB, then trackC, then trackD (two retries, not one), and the
    callback returns instead of raising; the queue is drained and the last
    track tried is left as current. *)
Lemma play_next_retries_down_the_queue :
  let r := after_playing broken guild7 7 (playing trackA [trackB; trackC; trackD] 0) in
  raised r = false /\
  attempted (driver_calls (state_of r)) = [song_url trackB; song_url trackC; song_url trackD] /\
  queues (state_of r) !! 7 = Some [] /\
  current_songs (state_of r) !! 7 = Some trackD.
Proof. repeat split. Qed.

(** C3, amended: when the start of the queue head fails, [_play_next] logs
    the failure and goes on to the following track, and so on down the
    queue: with the queue [failed ++ rest], where every track of [failed]
    fails to start and the head of [rest], if any, starts, it has tried
    exactly the tracks of [failed] and that head, in order; the head of
    [rest] is current and the tracks after it stay queued, or, when [rest]
    is empty, the queue is empty and the last track tried is left as
    current.  [_play_next] returns in every case; no failure reaches its
    caller. *)
Theorem play_next_tries_each_track w chat_id ctx platform h (failed rest : list Song) :
  queues h !! chat_id = Some (failed ++ rest) ->
  Forall (fun s => starts w ctx platform chat_id h s = false) failed ->
  match rest with
  | s :: _ => starts w ctx platform chat_id h s = true
  | [] => failed <> []
  end ->
  let h' := _play_next w chat_id ctx platform h in
  queues h' !! chat_id = Some (tail rest) /\
  current_songs h' !! chat_id =
    match rest with s :: _ => Some s | [] => last failed end /\
  attempted (driver_calls h') =
    attempted (driver_calls h) ++ map song_url (failed ++ take 1 rest).
Proof.
  revert h. induction failed as [| f failed IH]; intros h Hq Hf Hr; simpl in *.
  - destruct rest as [| s rest]; [congruence |].
    assert (raised (start_playback w ctx platform chat_id s
                      (take_head chat_id s rest h)) = false) as Hs.
    { apply negb_true_iff. fold (starts w ctx platform chat_id
        (take_head chat_id s rest h) s).
      rewrite <- Hr. now apply starts_speeds. }
    rewrite (_play_next_started _ _ _ _ _ _ _ Hq Hs).
    pose proof (start_playback_queues w ctx platform chat_id s
                  (take_head chat_id s rest h)) as Eq.
    destruct (start_playback_frame w ctx platform chat_id s
                (take_head chat_id s rest h)) as (Ec & _).
    rewrite Eq, Ec, start_playback_attempted. simpl.
    rewrite !lookup_insert_eq. auto.
  - apply Forall_cons in Hf as [Hf1 Hf].
    set (h1 := take_head chat_id f (failed ++ rest) h).
    assert (raised (start_playback w ctx platform chat_id f h1) = true) as Hs.
    { apply negb_false_iff. fold (starts w ctx platform chat_id h1 f).
      rewrite <- Hf1. now apply starts_speeds. }
    pose proof (start_playback_queues w ctx platform chat_id f h1) as Eq.
    destruct (start_playback_frame w ctx platform chat_id f h1) as (Ec & _ & Ep).
    pose proof (start_playback_attempted w ctx platform chat_id f h1) as Ea.
    rewrite _play_next_eq, Hq. fold h1.
    destruct (start_playback w ctx platform chat_id f h1) as [| h2 e];
      simpl in *; [congruence |].
    assert (queues h2 !! chat_id = Some (failed ++ rest)) as Hq2
      by (rewrite Eq; apply lookup_insert_eq).
    assert (current_songs h2 !! chat_id = Some f) as Hc2
      by (rewrite Ec; apply lookup_insert_eq).
    unfold has_queue. rewrite Hq2.
    destruct failed as [| f' failed]; [destruct rest as [| s rest] |].
    + simpl. rewrite Hq2, Hc2, Ea. auto.
    + destruct (IH h2) as (Rq & Rc & Ra); auto.
      { rewrite <- Hr. now apply starts_speeds. }
      simpl in *. rewrite Rq, Rc, Ra, Ea. rewrite <- app_assoc. auto.
    + destruct (IH h2) as (Rq & Rc & Ra); auto.
      { eapply Forall_impl; [exact Hf |]. simpl. intros s Hs'.
        rewrite <- Hs'. now apply starts_speeds. }
      { destruct rest; [congruence |].
        rewrite <- Hr. now apply starts_speeds. }
      simpl in *. rewrite Rq, Rc, Ra, Ea. rewrite <- app_assoc.
      repeat split; reflexivity.
Qed.

Lemma play_next_tries_each_track_witness :
  let w := externals (String.eqb (song_url trackD)) in
  let h := playing trackA [trackB; trackC; trackD; trackA] 0 in
  let h' := _play_next w 7 guild7 "discord" h in
  starts w guild7 "discord" 7 h trackD = true /\
  queues h' !! 7 = Some [trackA] /\
  current_songs h' !! 7 = Some trackD /\
  attempted (driver_calls h') = [song_url trackB; song_url trackC; song_url trackD].
Proof.
  split; [reflexivity |].
  apply (play_next_tries_each_track (externals (String.eqb (song_url trackD))) 7 guild7
           "discord" (playing trackA [trackB; trackC; trackD; trackA] 0)
           [trackB; trackC] [trackD; trackA]).
  - reflexivity.
  - repeat constructor.
  - reflexivity.
Defined.

(** * Loop policy of the completion callback *)

(** Case [loop_mode == 2] of the callback. *)
Lemma after_playing_loop_queue w ctx chat_id h current q :
  loop_mode_of h chat_id = 2 ->
  current_songs h !! chat_id = Some current ->
  queues h !! chat_id = Some q ->
  after_playing w ctx chat_id h =
  Return (_play_next w chat_id ctx "discord"
            (set_queues (<[chat_id := q ++ [current]]> (queues h)) h)) tt.
Proof.
  intros Hl Hc Hq. unfold after_playing. rewrite Hl, Hc, Hq. reflexivity.
Qed.

(** Case [loop_mode > 2] of the callback: the counter goes down by one and
    the track that just finished is put back at the head of the queue. *)
Lemma after_playing_loop_n w ctx chat_id h current q :
  2 < loop_mode_of h chat_id ->
  current_songs h !! chat_id = Some current ->
  queues h !! chat_id = Some q ->
  after_playing w ctx chat_id h =
  Return (_play_next w chat_id ctx "discord"
            (set_queues (<[chat_id := current :: q]> (queues h))
               (set_loop_modes
                  (<[chat_id := loop_mode_of h chat_id - 1]> (loop_modes h)) h)))
         tt.
Proof.
  intros Hl Hc Hq. unfold after_playing.
  destruct (Z.eqb_spec (loop_mode_of h chat_id) 1); [lia |].
  destruct (Z.ltb_spec 1 (loop_mode_of h chat_id)); [| lia].
  destruct (Z.eqb_spec (loop_mode_of h chat_id) 2); [lia |].
  simpl. rewrite Hc, Hq. reflexivity.
Qed.

(** Case [loop_mode == 1] of the callback: nothing is put back, the callback
    does what it does with the loop off. *)
Lemma after_playing_loop_song w ctx chat_id h :
  loop_mode_of h chat_id = 1 ->
  after_playing w ctx chat_id h = Return (_play_next w chat_id ctx "discord" h) tt.
Proof. intros Hl. unfold after_playing. rewrite Hl. reflexivity. Qed.

Lemma iter_rotate1_app (l1 l2 : list Song) :
  Nat.iter (length l1) rotate1 (l1 ++ l2) = l2 ++ l1.
Proof.
  revert l2. induction l1 as [| a l1 IH]; intros l2; simpl length.
  - simpl. now rewrite app_nil_r.
  - rewrite Nat.iter_succ_r. simpl rotate1. rewrite <- app_assoc, IH.
    now rewrite <- app_assoc.
Qed.

Lemma iter_rotate1_length (l : list Song) : Nat.iter (length l) rotate1 l = l.
Proof.
  pose proof (iter_rotate1_app l []) as H. now rewrite app_nil_r in H.
Qed.

Lemma healthy_always_starts : always_starts healthy guild7 7.
Proof. intros song h. reflexivity. Qed.

Lemma handle_invariant_init : handle_invariant init.
Proof. intros chat_id _. apply lookup_empty. Qed.

Lemma handle_invariant_ext h h' :
  current_songs h' = current_songs h -> voice_clients h' = voice_clients h ->
  handle_invariant h -> handle_invariant h'.
Proof. intros Ec Ev I chat_id. rewrite Ec, Ev. apply I. Qed.

Section DriverStarts.

(** A Discord chat whose driver starts every track. *)
Variables (w : Externals) (ctx : Context) (chat_id : Z).
Hypothesis Hstarts : always_starts w ctx chat_id.

(** Where [_play_next] leaves the chat when its queue is not empty. *)
Lemma _play_next_head h song rest :
  queues h !! chat_id = Some (song :: rest) ->
  let h' := _play_next w chat_id ctx "discord" h in
  queues h' = <[chat_id := rest]> (queues h) /\
  current_songs h' = <[chat_id := song]> (current_songs h) /\
  loop_modes h' = loop_modes h /\
  playback_speeds h' = playback_speeds h /\
  exists vc, voice_clients h' = <[chat_id := vc]> (voice_clients h).
Proof.
  intros Hq h'. subst h'.
  rewrite (_play_next_started _ _ _ _ _ _ _ Hq (Hstarts _ _)).
  pose proof (start_playback_queues w ctx "discord" chat_id song
                (take_head chat_id song rest h)) as Eq.
  destruct (start_playback_frame w ctx "discord" chat_id song
              (take_head chat_id song rest h)) as (Ec & El & Ep).
  pose proof (Hstarts song (take_head chat_id song rest h)) as Hr.
  destruct (start_playback w ctx "discord" chat_id song
              (take_head chat_id song rest h)) as [h2 [] | h2 e] eqn:E;
    simpl in *; [| congruence].
  apply start_playback_voice in E. auto.
Qed.

Lemma handle_invariant_play_next h :
  handle_invariant h -> handle_invariant (_play_next w chat_id ctx "discord" h).
Proof.
  intros I c.
  destruct (queues h !! chat_id) as [[| song rest] |] eqn:Hq.
  1, 3: rewrite _play_next_no_queue by (unfold has_queue; now rewrite Hq);
        simpl; intros Hv; destruct (decide (chat_id = c)) as [<- | Hne];
        [apply lookup_delete_eq | rewrite lookup_delete_ne by done; now apply I].
  destruct (_play_next_head h song rest Hq) as (_ & Ec & _ & _ & vc & Ev).
  rewrite Ec, Ev. destruct (decide (chat_id = c)) as [<- | Hne].
  - rewrite lookup_insert_eq. discriminate.
  - rewrite !lookup_insert_ne by done. apply I.
Qed.

(** The playlist after [n] completions under [loop_mode == 2]. *)
Lemma loop_queue_turns h current q n :
  loop_mode_of h chat_id = 2 ->
  current_songs h !! chat_id = Some current ->
  queues h !! chat_id = Some q ->
  exists hn cn qn,
    completions w ctx chat_id n h = Return hn tt /\
    loop_mode_of hn chat_id = 2 /\
    current_songs hn !! chat_id = Some cn /\
    queues hn !! chat_id = Some qn /\
    cn :: qn = Nat.iter n rotate1 (current :: q) /\
    length qn = length q.
Proof.
  intros Hl Hc Hq.
  induction n as [| n (hn & cn & qn & E & Hl' & Hc' & Hq' & Hrot & Hlen)].
  - exists h, current, q. simpl. repeat split; auto.
  - simpl. rewrite E, (after_playing_loop_queue _ _ _ _ _ _ Hl' Hc' Hq').
    set (h1 := set_queues (<[chat_id := qn ++ [cn]]> (queues hn)) hn).
    rewrite <- Hrot. simpl rotate1.
    destruct (qn ++ [cn]) as [| x l] eqn:Eql; [destruct qn; discriminate |].
    assert (queues h1 !! chat_id = Some (x :: l)) as Hq1
      by (unfold h1; simpl; rewrite ?Eql; apply lookup_insert_eq).
    destruct (_play_next_head h1 x l Hq1) as (Rq & Rc & Rl & _).
    exists (_play_next w chat_id ctx "discord" h1), x, l.
    repeat split.
    + unfold loop_mode_of in *. now rewrite Rl.
    + rewrite Rc. apply lookup_insert_eq.
    + rewrite Rq. apply lookup_insert_eq.
    + apply (f_equal length) in Eql. rewrite length_app in Eql.
      simpl in Eql. lia.
Qed.

(** The loop of the queue as it would be if the task the callback creates
    were run ([after_playing]): with [loop_mode == 2] the callback appends
    the track that just finished to the tail of the queue and then advances.
    When the driver starts every track, the playlist [current :: queue] is
    turned by one place at each completion, for ever: after any number [n]
    of completions the loop mode is still 2, the queue is as long as it was,
    and after [length queue + 1] completions the same track plays again in
    front of the same queue. *)
Theorem loop_queue_cycles h current q :
  loop_mode_of h chat_id = 2 ->
  current_songs h !! chat_id = Some current ->
  queues h !! chat_id = Some q ->
  after_playing w ctx chat_id h =
    Return (_play_next w chat_id ctx "discord"
              (set_queues (<[chat_id := q ++ [current]]> (queues h)) h)) tt /\
  (forall n, exists hn cn qn,
      completions w ctx chat_id n h = Return hn tt /\
      loop_mode_of hn chat_id = 2 /\
      current_songs hn !! chat_id = Some cn /\
      queues hn !! chat_id = Some qn /\
      cn :: qn = Nat.iter n rotate1 (current :: q) /\
      length qn = length q) /\
  (exists h', completions w ctx chat_id (S (length q)) h = Return h' tt /\
      current_songs h' !! chat_id = Some current /\
      queues h' !! chat_id = Some q).
Proof.
  intros Hl Hc Hq.
  split; [now apply after_playing_loop_queue |].
  split; [intros n; now apply loop_queue_turns |].
  destruct (loop_queue_turns h current q (S (length q)) Hl Hc Hq)
    as (h' & cn & qn & E & _ & Hc' & Hq' & Hrot & _).
  change (S (length q)) with (length (current :: q)) in Hrot.
  rewrite iter_rotate1_length in Hrot. injection Hrot as -> ->.
  exists h'. auto.
Qed.

End DriverStarts.

Lemma loop_queue_cycles_witness :
  let h := playing trackB [trackC] 2 in
  always_starts healthy guild7 7 /\
  exists h', completions healthy guild7 7 2 h = Return h' tt /\
    current_songs h' !! 7 = Some trackB /\ queues h' !! 7 = Some [trackC].
Proof.
  split; [exact healthy_always_starts |].
  exact (proj2 (proj2 (loop_queue_cycles healthy guild7 7 healthy_always_starts
                         (playing trackB [trackC] 2) trackB [trackC]
                         eq_refl eq_refl eq_refl))).
Defined.

(** Even then the cycle needs a driver that starts every track: a track
    whose start fails is dropped by [_play_next].  Here C cannot be
    resolved; the completion of A appends A, tries C, and goes on to A,
    leaving the queue one track shorter. *)
Example loop_queue_drops_failed_track :
  let w := externals (fun u => negb (String.eqb u (song_url trackC))) in
  now_playing (state_of (after_playing w guild7 7 (playing trackA [trackC] 2))) 7
  = (Some trackA, [], 2).
Proof. vm_compute. reflexivity. Qed.

(** ** The callback in the player thread *)

(** [after_playing] is the callback of the player thread followed by the
    run of [_play_next] that the thread cannot start. *)
Lemma after_playing_in_player_thread_then_play_next w ctx chat_id h :
  after_playing w ctx chat_id h =
  match after_playing_in_player_thread chat_id h with
  | Raise h' (Exception _) => Return (_play_next w chat_id ctx "discord" h') tt
  | Raise h' (KeyError key) => Raise h' (KeyError key)
  | Return h' _ => Return h' tt
  end.
Proof.
  unfold after_playing, after_playing_in_player_thread, no_running_event_loop.
  repeat case_match; simplify_eq; reflexivity.
Qed.

(** With the loop off or on "current song" the callback changes nothing. *)
Lemma player_thread_no_loop chat_id h :
  loop_mode_of h chat_id <= 1 ->
  after_playing_in_player_thread chat_id h = Raise h no_running_event_loop.
Proof.
  intros Hl. unfold after_playing_in_player_thread.
  destruct (Z.eqb_spec (loop_mode_of h chat_id) 1); [reflexivity |].
  destruct (Z.ltb_spec 1 (loop_mode_of h chat_id)); [lia | reflexivity].
Qed.

(** With [loop_mode == 2] the callback appends the current track to the
    queue of the chat, and that is all it does. *)
Lemma player_thread_loop_queue chat_id h current q :
  loop_mode_of h chat_id = 2 ->
  current_songs h !! chat_id = Some current ->
  queues h !! chat_id = Some q ->
  after_playing_in_player_thread chat_id h =
    Raise (set_queues (<[chat_id := q ++ [current]]> (queues h)) h)
          no_running_event_loop.
Proof.
  intros Hl Hc Hq. unfold after_playing_in_player_thread.
  rewrite Hl. simpl. now rewrite Hc, Hq.
Qed.

(** The callback in the player thread never returns. *)
Lemma player_thread_raises chat_id h :
  raised (after_playing_in_player_thread chat_id h) = true.
Proof.
  unfold after_playing_in_player_thread. repeat case_match; reflexivity.
Qed.

(** No track end calls the driver, and none changes the current songs, the
    speeds or the voice clients. *)
Lemma player_thread_frame chat_id h :
  let h' := state_of (after_playing_in_player_thread chat_id h) in
  current_songs h' = current_songs h /\
  playback_speeds h' = playback_speeds h /\
  voice_clients h' = voice_clients h /\
  driver_calls h' = driver_calls h.
Proof.
  unfold after_playing_in_player_thread.
  repeat case_match; simplify_eq; simpl; auto.
Qed.

(** C5, on the code: with [loop_mode == 2], track A playing in chat 7 and B
    queued, the callback that runs when A ends appends A to the tail of the
    queue, and there it stops: [asyncio.create_task] raises in the player
    thread, [_play_next] is never run, and no driver is called.  A is still
    the current track, B is still at the head of the queue and the queue is
    one track longer.  A second run of the callback appends A once more:
    the playlist does not turn and the length of the queue is not
    constant. *)
Theorem loop_queue_callback_does_not_advance :
  let h := playing trackA [trackB] 2 in
  let r := after_playing_in_player_thread 7 h in
  let r2 := after_playing_in_player_thread 7 (state_of r) in
  r = Raise (set_queues {[ 7 := [trackB; trackA] ]} h) no_running_event_loop /\
  now_playing h 7 = (Some trackA, [trackB], 2) /\
  now_playing (state_of r) 7 = (Some trackA, [trackB; trackA], 2) /\
  driver_calls (state_of r) = [] /\
  raised r2 = true /\
  now_playing (state_of r2) 7 = (Some trackA, [trackB; trackA; trackA], 2) /\
  driver_calls (state_of r2) = [].
Proof. repeat split. Qed.

(** * The repeat counter *)

(** C1, on the code: with [loop_mode = 5], track A playing and B queued, and
    a driver that starts every track, the first three completions replay A
    and count the loop mode down to 2.  From there the value 2 is read as
    "loop the queue": the fourth completion already advances to B with A
    appended behind it, the fifth and sixth keep alternating, and the loop
    mode stays 2.  With nothing queued, A is still playing after the sixth
    and the seventh completion. *)
Theorem repeat_5_ends_in_queue_loop :
  let after q n :=
    now_playing (state_of (completions healthy guild7 7 n (playing trackA q 5))) 7 in
  after [trackB] 1%nat = (Some trackA, [trackB], 4) /\
  after [trackB] 2%nat = (Some trackA, [trackB], 3) /\
  after [trackB] 3%nat = (Some trackA, [trackB], 2) /\
  after [trackB] 4%nat = (Some trackB, [trackA], 2) /\
  after [trackB] 5%nat = (Some trackA, [trackB], 2) /\
  after [trackB] 6%nat = (Some trackB, [trackA], 2) /\
  after [] 6%nat = (Some trackA, [], 2) /\
  after [] 7%nat = (Some trackA, [], 2).
Proof. repeat split; vm_compute; reflexivity. Qed.

(** C2, on the code: with [loop_mode = 1], track A playing and B queued, the
    completion of A pops B off the queue and plays it; the next completion
    finds the queue empty and leaves the chat without a current track. *)
Theorem loop_song_advances :
  let after n :=
    now_playing
      (state_of (completions healthy guild7 7 n (playing trackA [trackB] 1))) 7 in
  after 0%nat = (Some trackA, [trackB], 1) /\
  after 1%nat = (Some trackB, [], 1) /\
  after 2%nat = (None, [], 1).
Proof. repeat split; vm_compute; reflexivity. Qed.

(** * The output handle and the current track *)

(** The claim of C4 as the specification words it fails: a Telegram chat
    that starts its first track has a current track and no stored output
    handle, because [_play_telegram] stores none. *)
Lemma telegram_plays_without_handle :
  let h := run healthy guild7 "telegram" (CmdPlay "A" false) init in
  handle_invariant init /\
  is_Some (current_songs h !! 7) /\
  voice_clients h !! 7 = None /\
  driver_calls h =
    [SearchSong "A"; ExtractInfo "https://youtu.be/A"; Piped false "https://youtu.be/A"].
Proof.
  split; [exact handle_invariant_init |].
  split; [eexists; reflexivity |]. split; reflexivity.
Qed.

Local Ltac same_handles :=
  match goal with
  | I : handle_invariant ?h |- handle_invariant _ =>
      apply (handle_invariant_ext h); [reflexivity | reflexivity | exact I]
  end.

Local Ltac advanced :=
  match goal with
  | W : always_starts _ _ _ |- handle_invariant (_play_next _ _ _ _ _) =>
      apply handle_invariant_play_next; [exact W | same_handles]
  end.

(** C4, amended: on Discord, with a driver that starts every track it is
    asked to start in the chat, every command and every track end keeps the
    invariant that a chat with no stored voice client has no current
    track. *)
Theorem discord_keeps_handle_invariant w ctx c h :
  always_starts w ctx (_get_chat_id ctx "discord") ->
  handle_invariant h ->
  handle_invariant (run w ctx "discord" c h).
Proof.
  intros W I. set (chat_id := _get_chat_id ctx "discord") in *.
  destruct c; simpl.
  - unfold search_and_play. fold chat_id.
    repeat case_match; simpl; first [same_handles | advanced].
  - unfold skip_song. fold chat_id.
    repeat case_match; simpl; first [same_handles | advanced].
  - assert (forall h', current_songs h' = delete chat_id (current_songs h) ->
              (voice_clients h' = voice_clients h \/
               voice_clients h' = delete chat_id (voice_clients h)) ->
              handle_invariant h') as Hstop.
    { intros h' Ec Ev x Hx. rewrite Ec.
      destruct (decide (chat_id = x)) as [<- | Hne]; [apply lookup_delete_eq |].
      rewrite lookup_delete_ne by done. apply I.
      destruct Ev as [Ev | Ev]; rewrite Ev in Hx; [exact Hx |].
      now rewrite lookup_delete_ne in Hx. }
    unfold stop_playback. fold chat_id.
    repeat case_match; simpl; apply Hstop; simpl; auto.
  - unfold pause_playback. repeat case_match; simpl; same_handles.
  - unfold resume_playback. repeat case_match; simpl; same_handles.
  - unfold shuffle_queue. repeat case_match; simpl; same_handles.
  - unfold set_loop_mode. repeat case_match; simpl; same_handles.
  - unfold set_playback_speed. repeat case_match; simpl; same_handles.
  - exact I.
  - unfold after_playing. fold chat_id.
    repeat case_match; simplify_eq; simpl; first [same_handles | advanced].
Qed.

Lemma discord_keeps_handle_invariant_witness :
  always_starts healthy guild7 (_get_chat_id guild7 "discord") /\
  handle_invariant init /\
  handle_invariant (run healthy guild7 "discord" (CmdPlay "A" false) init).
Proof.
  split; [exact healthy_always_starts |].
  split; [exact handle_invariant_init |].
  exact (discord_keeps_handle_invariant healthy guild7 (CmdPlay "A" false) init
           healthy_always_starts handle_invariant_init).
Defined.

(** * Histories of commands *)

(** One thing that happens to the handler, with the context it comes from,
    its platform and the answers the collaborators give while it runs. *)
Record Event := {
  ev_externals : Externals;
  ev_ctx : Context;
  ev_platform : string;
  ev_command : Command
}.

(** The state after a history, oldest event first. *)
Definition replay (events : list Event) (h : MusicHandler) : MusicHandler :=
  foldl (fun h e => run (ev_externals e) (ev_ctx e) (ev_platform e) (ev_command e) h)
        h events.

(** Every chat with a current song has an entry in [queues], so that
    [self.queues[chat_id]] can be read where [self.current_songs.get(chat_id)]
    is true. *)
Definition queue_key_invariant (h : MusicHandler) : Prop :=
  forall chat_id,
    is_Some (current_songs h !! chat_id) -> is_Some (queues h !! chat_id).

Lemma replay_snoc events e h :
  replay (events ++ [e]) h =
  run (ev_externals e) (ev_ctx e) (ev_platform e) (ev_command e) (replay events h).
Proof. unfold replay. now rewrite foldl_app. Qed.

(** An invariant of [run] that holds in the fresh handler holds after every
    history. *)
Lemma replay_invariant (P : MusicHandler -> Prop) :
  P init ->
  (forall w ctx platform c h, P h -> P (run w ctx platform c h)) ->
  forall events, P (replay events init).
Proof.
  intros H0 Hstep events. induction events as [| e events IH] using rev_ind.
  - exact H0.
  - rewrite replay_snoc. now apply Hstep.
Qed.

Lemma start_playback_voice_other w ctx platform chat_id song h c :
  c <> chat_id ->
  voice_clients (state_of (start_playback w ctx platform chat_id song h)) !! c
  = voice_clients h !! c.
Proof.
  intros Hne.
  unfold start_playback, _get_audio_source, _play_discord, _play_telegram.
  repeat case_match; simplify_eq; simpl; rewrite ?lookup_insert_ne by done;
    reflexivity.
Qed.

(** [_play_next] reads and writes the entries of its own chat only. *)
Lemma _play_next_other_chats w chat_id ctx platform h c :
  c <> chat_id ->
  queues (_play_next w chat_id ctx platform h) !! c = queues h !! c /\
  current_songs (_play_next w chat_id ctx platform h) !! c = current_songs h !! c /\
  voice_clients (_play_next w chat_id ctx platform h) !! c = voice_clients h !! c.
Proof.
  intros Hne.
  funelim (_play_next w chat_id ctx platform h); try clear Heqcall.
  1, 2: simpl; rewrite lookup_delete_ne by done; auto.
  all: match goal with
       | E : start_playback ?w ?ctx ?p ?k ?s ?h0 = _, N : ?x <> ?k |- _ =>
           pose proof (start_playback_queues w ctx p k s h0) as Fq;
           pose proof (start_playback_frame w ctx p k s h0) as (Fc & _);
           pose proof (start_playback_voice_other w ctx p k s h0 x N) as Fv;
           rewrite E in Fq, Fc, Fv; simpl in Fq, Fc, Fv
       end.
  all: try match goal with
       | IH : forall x, x <> _ -> _, N : _ <> _ |- _ =>
           destruct (IH _ N) as (-> & -> & ->)
       end.
  all: rewrite Fq, Fc, Fv, !lookup_insert_ne by done; auto.
Qed.

(** After [_play_next] the chat has a queue entry whenever it has a current
    song, whatever the state before. *)
Lemma _play_next_queue_key w chat_id ctx platform h :
  is_Some (current_songs (_play_next w chat_id ctx platform h) !! chat_id) ->
  is_Some (queues (_play_next w chat_id ctx platform h) !! chat_id).
Proof.
  funelim (_play_next w chat_id ctx platform h); try clear Heqcall.
  1, 2: simpl; rewrite lookup_delete_eq; intros []; discriminate.
  all: try assumption.
  all: match goal with
       | E : start_playback ?w ?ctx ?p ?k ?s ?h0 = _ |- _ =>
           pose proof (start_playback_queues w ctx p k s h0) as Fq;
           rewrite E in Fq; simpl in Fq
       end.
  all: intros _; rewrite Fq, lookup_insert_eq; eauto.
Qed.

Lemma queue_key_invariant_play_next w chat_id ctx platform h :
  queue_key_invariant h ->
  queue_key_invariant (_play_next w chat_id ctx platform h).
Proof.
  intros I c. destruct (decide (c = chat_id)) as [-> | Hne].
  - apply _play_next_queue_key.
  - destruct (_play_next_other_chats w chat_id ctx platform h c Hne)
      as (-> & -> & _).
    apply I.
Qed.

Lemma queue_key_invariant_init : queue_key_invariant init.
Proof. intros c [x Hx]. simpl in Hx. now rewrite lookup_empty in Hx. Qed.

(** The invariant survives any change that keeps the current songs and only
    adds queue entries. *)
Lemma queue_key_invariant_grow h h' :
  current_songs h' = current_songs h ->
  (forall c, is_Some (queues h !! c) -> is_Some (queues h' !! c)) ->
  queue_key_invariant h -> queue_key_invariant h'.
Proof. intros Ec Hq I c Hc. rewrite Ec in Hc. auto. Qed.

Local Ltac keeps_keys :=
  match goal with
  | I : queue_key_invariant ?h |- queue_key_invariant _ =>
      apply (queue_key_invariant_grow h); [reflexivity | | exact I];
      simpl; intros c0 Hc0;
      repeat match goal with
      | |- context [<[?k := _]> _ !! c0] =>
          destruct (decide (k = c0)) as [<- | ?];
          [rewrite lookup_insert_eq; eauto | rewrite lookup_insert_ne by done]
      end; try assumption
  end.

Local Ltac advanced_keys :=
  match goal with
  | |- queue_key_invariant (_play_next _ _ _ _ _) =>
      apply queue_key_invariant_play_next; keeps_keys
  end.

(** Every command and every track end, on either platform and whatever the
    collaborators answer, keeps the invariant. *)
Lemma queue_key_invariant_run w ctx platform c h :
  queue_key_invariant h -> queue_key_invariant (run w ctx platform c h).
Proof.
  intros I. destruct c; simpl.
  - unfold search_and_play.
    repeat case_match; simpl; first [keeps_keys | advanced_keys].
  - unfold skip_song.
    repeat case_match; simpl; first [keeps_keys | advanced_keys].
  - assert (forall h', current_songs h' =
                         delete (_get_chat_id ctx platform) (current_songs h) ->
                       queues h' = delete (_get_chat_id ctx platform) (queues h) ->
                       queue_key_invariant h') as Hstop.
    { intros h' Ec Eq x. rewrite Ec, Eq.
      destruct (decide (_get_chat_id ctx platform = x)) as [<- | Hne].
      - rewrite lookup_delete_eq. intros []; discriminate.
      - rewrite !lookup_delete_ne by done. apply I. }
    unfold stop_playback. repeat case_match; simpl; apply Hstop; reflexivity.
  - unfold pause_playback. repeat case_match; simpl; keeps_keys.
  - unfold resume_playback. repeat case_match; simpl; keeps_keys.
  - unfold shuffle_queue. repeat case_match; simpl; keeps_keys.
  - unfold set_loop_mode. repeat case_match; simpl; keeps_keys.
  - unfold set_playback_speed. repeat case_match; simpl; keeps_keys.
  - exact I.
  - unfold after_playing.
    repeat case_match; simplify_eq; simpl; first [keeps_keys | advanced_keys].
Qed.


(** X1: after any history of commands and track ends on a fresh handler,
    on any platforms and with any answers of the collaborators, every chat
    that has a current song has an entry in [queues]. *)
Theorem queue_key_after_any_history events :
  queue_key_invariant (replay events init).
Proof.
  apply (replay_invariant queue_key_invariant).
  - exact queue_key_invariant_init.
  - intros w ctx platform c h. apply queue_key_invariant_run.
Qed.

(** Under the invariant the [KeyError] branches of the completion callback
    and of [set_playback_speed] are dead. *)
Lemma after_playing_returns w ctx chat_id h :
  queue_key_invariant h -> raised (after_playing w ctx chat_id h) = false.
Proof.
  intros I. unfold after_playing.
  repeat case_match; simplify_eq; simpl; try reflexivity.
  all: match goal with
       | Hc : current_songs _ !! ?k = Some _, Hq : queues _ !! ?k = None |- _ =>
           simpl in Hc, Hq; destruct (I k) as [q Eq]; [eauto | congruence]
       end.
Qed.

Lemma set_playback_speed_returns w ctx speed platform h :
  queue_key_invariant h ->
  exists h', set_playback_speed w ctx speed platform h =
    Return h' (negb (PrimFloat.ltb speed 0.5%float || PrimFloat.ltb 2.0%float speed)).
Proof.
  intros I. unfold set_playback_speed.
  destruct (PrimFloat.ltb speed 0.5%float || PrimFloat.ltb 2.0%float speed);
    simpl; [eauto |].
  repeat case_match; simplify_eq; simpl; eauto.
  all: match goal with
       | Hc : current_songs _ !! ?k = Some _, Hq : queues _ !! ?k = None |- _ =>
           simpl in Hc, Hq; destruct (I k) as [q Eq]; [eauto | congruence]
       end.
Qed.

(** ** Histories with the player thread *)

(** What happens to a handler while the bot runs: an event of the
    dispatcher, or the end of a track in the player thread of a chat. *)
Inductive Happening :=
  | Dispatched (e : Event)
  | PlayerThreadEnd (chat_id : Z).

Definition happen (x : Happening) (h : MusicHandler) : MusicHandler :=
  match x with
  | Dispatched e =>
      run (ev_externals e) (ev_ctx e) (ev_platform e) (ev_command e) h
  | PlayerThreadEnd chat_id => state_of (after_playing_in_player_thread chat_id h)
  end.

(** The state after a history, oldest first. *)
Definition history (xs : list Happening) (h : MusicHandler) : MusicHandler :=
  foldl (fun h x => happen x h) h xs.

Lemma queue_key_invariant_player_thread chat_id h :
  queue_key_invariant h ->
  queue_key_invariant (state_of (after_playing_in_player_thread chat_id h)).
Proof.
  intros I. unfold after_playing_in_player_thread.
  repeat case_match; simplify_eq; simpl; keeps_keys.
Qed.

Lemma queue_key_invariant_history xs :
  queue_key_invariant (history xs init).
Proof.
  induction xs as [| x xs IH] using rev_ind; [exact queue_key_invariant_init |].
  unfold history in *. rewrite foldl_app. simpl.
  destruct x as [e | chat_id]; simpl.
  - now apply queue_key_invariant_run.
  - now apply queue_key_invariant_player_thread.
Qed.

(** Under the invariant the callback of the player thread gets as far as
    [asyncio.create_task]. *)
Lemma player_thread_reaches_create_task chat_id h :
  queue_key_invariant h ->
  exists h', after_playing_in_player_thread chat_id h = Raise h' no_running_event_loop.
Proof.
  intros I. unfold after_playing_in_player_thread.
  repeat case_match; simplify_eq; simpl; eauto.
  all: match goal with
       | Hc : current_songs _ !! ?k = Some _, Hq : queues _ !! ?k = None |- _ =>
           simpl in Hc, Hq; destruct (I k) as [q Eq]; [eauto | congruence]
       end.
Qed.

(** X2: after any history of commands and track ends on a fresh handler,
    the [KeyError] of [self.queues[chat_id]] (read where
    [self.current_songs.get(chat_id)] is true) cannot happen:
    [set_playback_speed] does not raise, and the callback of the player
    thread gets through its requeue and raises only where it calls
    [asyncio.create_task]. *)
Theorem no_key_error_after_any_history xs w ctx chat_id speed platform :
  (exists h', after_playing_in_player_thread chat_id (history xs init)
              = Raise h' no_running_event_loop) /\
  raised (set_playback_speed w ctx speed platform (history xs init)) = false.
Proof.
  pose proof (queue_key_invariant_history xs) as I.
  split; [now apply player_thread_reaches_create_task |].
  destruct (set_playback_speed_returns w ctx speed platform _ I) as (h' & ->).
  reflexivity.
Qed.

(** ** Isolation of chats *)

(** Two states agree on everything stored for chat [c]. *)
Definition same_at (c : Z) (h' h : MusicHandler) : Prop :=
  queues h' !! c = queues h !! c /\
  current_songs h' !! c = current_songs h !! c /\
  loop_modes h' !! c = loop_modes h !! c /\
  playback_speeds h' !! c = playback_speeds h !! c /\
  voice_clients h' !! c = voice_clients h !! c.

Lemma same_at_play_next w chat_id ctx platform h0 h c :
  c <> chat_id -> same_at c h0 h ->
  same_at c (_play_next w chat_id ctx platform h0) h.
Proof.
  intros Hne (Eq & Ec & El & Ep & Ev).
  destruct (_play_next_other_chats w chat_id ctx platform h0 c Hne)
    as (Rq & Rc & Rv).
  destruct (_play_next_frame w chat_id ctx platform h0) as (Rl & Rp).
  unfold same_at. rewrite Rq, Rc, Rv, Rl, Rp. auto.
Qed.

Local Ltac untouched :=
  repeat (apply same_at_play_next; [done |]);
  unfold same_at; simpl;
  rewrite ?lookup_insert_ne, ?lookup_delete_ne by done; auto.

(** X3: a command or a track end of one chat leaves the queue, the current
    song, the loop mode, the speed and the voice client of every other chat
    as they were. *)
Theorem other_chats_untouched w ctx platform cmd h c :
  c <> _get_chat_id ctx platform ->
  c <> _get_chat_id ctx "discord" ->
  same_at c (run w ctx platform cmd h) h.
Proof.
  intros Hp Hd. destruct cmd; simpl.
  - unfold search_and_play. repeat case_match; simpl; untouched.
  - unfold skip_song. repeat case_match; simpl; untouched.
  - unfold stop_playback. repeat case_match; simpl; untouched.
  - unfold pause_playback. repeat case_match; simpl; untouched.
  - unfold resume_playback. repeat case_match; simpl; untouched.
  - unfold shuffle_queue. repeat case_match; simpl; untouched.
  - unfold set_loop_mode. repeat case_match; simpl; untouched.
  - unfold set_playback_speed. repeat case_match; simpl; untouched.
  - untouched.
  - unfold after_playing. repeat case_match; simplify_eq; simpl; untouched.
Qed.

Lemma other_chats_untouched_witness :
  let h := set_loop_modes {[ 7 := 2; 8 := 1 ]} (playing trackA [trackB] 2) in
  (8 <> _get_chat_id guild7 "discord") /\
  loop_modes (run healthy guild7 "discord" CmdStop h) !! 8 = Some 1 /\
  loop_modes (run healthy guild7 "discord" CmdStop h) !! 7 = None.
Proof.
  assert (8 <> _get_chat_id guild7 "discord") as N by (vm_compute; discriminate).
  split; [exact N |]. split; [| reflexivity].
  destruct (other_chats_untouched healthy guild7 "discord" CmdStop
              (set_loop_modes {[ 7 := 2; 8 := 1 ]} (playing trackA [trackB] 2))
              8 N N) as (_ & _ & El & _).
  rewrite El. reflexivity.
Defined.

(** ** Stored settings stay within what their setters admit *)

Definition loop_modes_in_range (h : MusicHandler) : Prop :=
  forall c m, loop_modes h !! c = Some m -> 0 <= m <= 10.

Definition speeds_admitted (h : MusicHandler) : Prop :=
  forall c s, playback_speeds h !! c = Some s ->
    PrimFloat.ltb s 0.5%float = false /\ PrimFloat.ltb 2.0%float s = false.

Lemma loop_modes_in_range_play_next w chat_id ctx platform h :
  loop_modes_in_range h -> loop_modes_in_range (_play_next w chat_id ctx platform h).
Proof.
  intros I c m. rewrite (proj1 (_play_next_frame w chat_id ctx platform h)).
  apply I.
Qed.

Lemma speeds_admitted_play_next w chat_id ctx platform h :
  speeds_admitted h -> speeds_admitted (_play_next w chat_id ctx platform h).
Proof.
  intros I c s. rewrite (proj2 (_play_next_frame w chat_id ctx platform h)).
  apply I.
Qed.

Lemma loop_mode_of_in_range h c :
  loop_modes_in_range h -> 0 <= loop_mode_of h c <= 10.
Proof.
  intros I. unfold loop_mode_of.
  destruct (loop_modes h !! c) as [m |] eqn:E; simpl; [eauto | lia].
Qed.

Local Ltac in_range I :=
  repeat (apply loop_modes_in_range_play_next);
  intros c0 m0; simpl;
  rewrite ?lookup_insert, ?lookup_delete; repeat case_decide;
  intros Hm0; simplify_eq; try (apply I in Hm0; lia); try lia.

Lemma loop_modes_in_range_run w ctx platform c h :
  loop_modes_in_range h -> loop_modes_in_range (run w ctx platform c h).
Proof.
  intros I. destruct c; simpl.
  - unfold search_and_play. repeat case_match; simpl; in_range I.
  - unfold skip_song. repeat case_match; simpl; in_range I.
  - unfold stop_playback. repeat case_match; simpl; in_range I.
  - unfold pause_playback. repeat case_match; simpl; in_range I.
  - unfold resume_playback. repeat case_match; simpl; in_range I.
  - unfold shuffle_queue. repeat case_match; simpl; in_range I.
  - unfold set_loop_mode.
    destruct (Z.ltb_spec (match mode with
                          | Some m => m
                          | None => if loop_mode_of h (_get_chat_id ctx platform) =? 0
                                    then 2 else 0
                          end) 0);
      destruct (Z.ltb_spec 10 (match mode with
                          | Some m => m
                          | None => if loop_mode_of h (_get_chat_id ctx platform) =? 0
                                    then 2 else 0
                          end)); simpl; in_range I.
  - unfold set_playback_speed. repeat case_match; simpl; in_range I.
  - exact I.
  - pose proof (loop_mode_of_in_range h (_get_chat_id ctx "discord") I) as R.
    unfold after_playing.
    destruct (Z.eqb_spec (loop_mode_of h (_get_chat_id ctx "discord")) 1);
      [in_range I |].
    destruct (Z.ltb_spec 1 (loop_mode_of h (_get_chat_id ctx "discord")));
      [| in_range I].
    destruct (Z.eqb_spec (loop_mode_of h (_get_chat_id ctx "discord")) 2);
      repeat case_match; simplify_eq; simpl; in_range I.
Qed.

Lemma speeds_admitted_run w ctx platform c h :
  speeds_admitted h -> speeds_admitted (run w ctx platform c h).
Proof.
  assert (forall h', playback_speeds h' = playback_speeds h ->
                     speeds_admitted h -> speeds_admitted h') as Same
    by (intros h' E I c0 s0; rewrite E; apply I).
  intros I. destruct c; simpl.
  - unfold search_and_play. repeat case_match; simpl;
      repeat apply speeds_admitted_play_next; now apply Same.
  - unfold skip_song. repeat case_match; simpl;
      repeat apply speeds_admitted_play_next; now apply Same.
  - unfold stop_playback. repeat case_match; simpl; now apply Same.
  - unfold pause_playback. repeat case_match; simpl; now apply Same.
  - unfold resume_playback. repeat case_match; simpl; now apply Same.
  - unfold shuffle_queue. repeat case_match; simpl; now apply Same.
  - unfold set_loop_mode. repeat case_match; simpl; now apply Same.
  - unfold set_playback_speed.
    destruct (PrimFloat.ltb speed 0.5%float) eqn:Lo;
      destruct (PrimFloat.ltb 2.0%float speed) eqn:Hi; simpl; try exact I.
    repeat case_match; simpl; intros c0 s0; simpl;
      rewrite lookup_insert; case_decide; intros Hs; simplify_eq;
      try (now apply I in Hs); auto.
  - exact I.
  - unfold after_playing. repeat case_match; simplify_eq; simpl;
      repeat apply speeds_admitted_play_next; now apply Same.
Qed.

(** X4: after any history on a fresh handler the loop mode of every chat
    lies between 0 and 10. *)
Theorem loop_mode_in_range_after_any_history events c :
  0 <= loop_mode_of (replay events init) c <= 10.
Proof.
  apply loop_mode_of_in_range.
  apply (replay_invariant loop_modes_in_range).
  - intros c0 m0 H. simpl in H. now rewrite lookup_empty in H.
  - intros w ctx platform cmd h. apply loop_modes_in_range_run.
Qed.

(** X5: after any history on a fresh handler the speed of every chat is
    neither below 0.5 nor above 2.0. *)
Theorem speed_admitted_after_any_history events c :
  PrimFloat.ltb (speed_of (replay events init) c) 0.5%float = false /\
  PrimFloat.ltb 2.0%float (speed_of (replay events init) c) = false.
Proof.
  assert (speeds_admitted (replay events init)) as I.
  { apply (replay_invariant speeds_admitted).
    - intros c0 s0 H. simpl in H. now rewrite lookup_empty in H.
    - intros w ctx platform cmd h. apply speeds_admitted_run. }
  unfold speed_of. destruct (playback_speeds (replay events init) !! c) as [s |] eqn:E.
  - simpl. eauto.
  - simpl. split; reflexivity.
Qed.

(** * [search_and_play] *)

(** The [song_data] dictionary [search_and_play] builds from a search
    result. *)
Definition song_data_of (ctx : Context) (platform : string) (video : bool)
    (song_info : SongInfo) : Song :=
  {| song_title := si_title song_info;
     song_url := si_url song_info;
     song_duration := si_duration song_info;
     song_thumbnail := default "" (si_thumbnail song_info);
     song_views := default "Unknown" (si_view_count song_info);
     song_uploader := default "Unknown" (si_uploader song_info);
     song_video := video;
     song_requested_by := _get_user_id ctx platform;
     song_platform := platform |}.

(** Several [search_and_play] requests of one chat in a row. *)
Definition enqueue_all (w : Externals) (ctx : Context) (platform : string)
    (video : bool) (queries : list string) (h : MusicHandler) : MusicHandler :=
  foldl (fun h query => state_of (search_and_play w query ctx platform video h))
        h queries.

(** Collaborators whose search finds nothing. *)
Definition deaf : Externals :=
  {| extract_info := extract_info healthy;
     search_song := fun _ => None;
     connect := connect healthy;
     play := play healthy;
     disconnect := disconnect healthy;
     is_playing := is_playing healthy;
     is_paused := is_paused healthy;
     pytgcalls := pytgcalls healthy |}.

(** A request made while a song is current only appends to the queue. *)
Lemma search_and_play_enqueues w query ctx platform video h current song_info :
  current_songs h !! _get_chat_id ctx platform = Some current ->
  search_song w query = Some song_info ->
  exists h',
    search_and_play w query ctx platform video h =
      Return h' (song_data_of ctx platform video song_info) /\
    queues h' = <[_get_chat_id ctx platform :=
                   queue_of h (_get_chat_id ctx platform)
                   ++ [song_data_of ctx platform video song_info]]> (queues h) /\
    current_songs h' = current_songs h /\
    loop_modes h' = loop_modes h /\
    playback_speeds h' = playback_speeds h /\
    voice_clients h' = voice_clients h /\
    driver_calls h' = driver_calls h ++ [SearchSong query].
Proof.
  intros Hc Hs. unfold search_and_play. rewrite Hs.
  fold (song_data_of ctx platform video song_info).
  set (chat_id := _get_chat_id ctx platform) in *.
  destruct (queues h !! chat_id) as [q |] eqn:Hq; simpl; rewrite Hc;
    eexists; (split; [reflexivity |]); simpl; repeat split.
  all: unfold queue_of; simpl; rewrite ?lookup_insert_eq, ?Hq; simpl;
    rewrite ?insert_insert_eq; reflexivity.
Qed.

(** X6: requests made while a song is current are queued in the order they
    were made: when every query finds a track, the queue is the old queue
    followed by the tracks found, in the order of the requests; the current
    song, the loop modes, the speeds and the voice clients are not touched,
    and the only calls made are the searches. *)
Theorem enqueue_keeps_order w ctx platform video queries infos h current :
  current_songs h !! _get_chat_id ctx platform = Some current ->
  Forall2 (fun query song_info => search_song w query = Some song_info)
          queries infos ->
  queue_of (enqueue_all w ctx platform video queries h) (_get_chat_id ctx platform)
    = queue_of h (_get_chat_id ctx platform)
      ++ map (song_data_of ctx platform video) infos /\
  current_songs (enqueue_all w ctx platform video queries h) = current_songs h /\
  loop_modes (enqueue_all w ctx platform video queries h) = loop_modes h /\
  playback_speeds (enqueue_all w ctx platform video queries h) = playback_speeds h /\
  voice_clients (enqueue_all w ctx platform video queries h) = voice_clients h /\
  driver_calls (enqueue_all w ctx platform video queries h)
    = driver_calls h ++ map SearchSong queries.
Proof.
  intros Hc Hall. revert h Hc.
  induction Hall as [| query song_info queries infos Hs _ IH]; intros h Hc.
  - simpl. rewrite !app_nil_r. repeat split; reflexivity.
  - destruct (search_and_play_enqueues w query ctx platform video h current
                song_info Hc Hs) as (h1 & E & Eq & Ec & El & Ep & Ev & Ed).
    simpl. rewrite E. simpl.
    destruct (IH h1) as (Rq & Rc & Rl & Rp & Rv & Rd); [now rewrite Ec |].
    rewrite Rq, Rc, Rl, Rp, Rv, Rd, Ec, El, Ep, Ev, Ed.
    repeat split; auto.
    + unfold queue_of at 1. rewrite Eq, lookup_insert_eq. simpl.
      now rewrite <- app_assoc.
    + now rewrite <- app_assoc.
Qed.

Lemma enqueue_keeps_order_witness :
  let h := enqueue_all healthy guild7 "discord" false ["B"; "C"; "D"]
             (playing trackA [] 0) in
  current_songs (playing trackA [] 0) !! _get_chat_id guild7 "discord" = Some trackA /\
  map song_title (queue_of h (_get_chat_id guild7 "discord")) = ["B"; "C"; "D"] /\
  current_songs h !! 7 = Some trackA.
Proof.
  assert (Forall2 (fun query song_info => search_song healthy query = Some song_info)
            ["B"; "C"; "D"]
            (omap (search_song healthy) ["B"; "C"; "D"])) as F
    by (repeat constructor).
  destruct (enqueue_keeps_order healthy guild7 "discord" false ["B"; "C"; "D"]
              _ (playing trackA [] 0) trackA eq_refl F) as (Eq & Ec & _).
  split; [reflexivity |]. split.
  - rewrite Eq. reflexivity.
  - rewrite Ec. reflexivity.
Defined.

(** X7: on Discord, a request in a chat with no current song and nothing
    queued, with a driver that starts the track, makes the track found the
    current song at once and leaves the queue empty; the voice connection is
    stored. *)
Theorem play_on_idle_chat w ctx video query song_info h :
  always_starts w ctx (_get_chat_id ctx "discord") ->
  current_songs h !! _get_chat_id ctx "discord" = None ->
  has_queue h (_get_chat_id ctx "discord") = false ->
  search_song w query = Some song_info ->
  exists h',
    search_and_play w query ctx "discord" video h =
      Return h' (song_data_of ctx "discord" video song_info) /\
    current_songs h' !! _get_chat_id ctx "discord" =
      Some (song_data_of ctx "discord" video song_info) /\
    queues h' !! _get_chat_id ctx "discord" = Some [] /\
    is_Some (voice_clients h' !! _get_chat_id ctx "discord").
Proof.
  intros Hw Hc Hq Hs. unfold search_and_play. rewrite Hs.
  fold (song_data_of ctx "discord" video song_info).
  set (chat_id := _get_chat_id ctx "discord") in *.
  set (song := song_data_of ctx "discord" video song_info).
  assert (forall h0, queues h0 !! chat_id = Some [song] ->
            let h' := _play_next w chat_id ctx "discord" h0 in
            current_songs h' !! chat_id = Some song /\
            queues h' !! chat_id = Some [] /\
            is_Some (voice_clients h' !! chat_id)) as Hnext.
  { intros h0 E.
    destruct (_play_next_head w ctx chat_id Hw h0 song [] E)
      as (Rq & Rc & _ & _ & vc & Rv).
    simpl. rewrite Rq, Rc, Rv, !lookup_insert_eq. eauto. }
  unfold has_queue in Hq.
  destruct (queues h !! chat_id) as [[| x q] |] eqn:E; try discriminate;
    simpl; rewrite Hc; eexists; (split; [reflexivity |]); apply Hnext;
    unfold queue_of; simpl; rewrite ?E, ?lookup_insert_eq; simpl;
    rewrite ?lookup_insert_eq; reflexivity.
Qed.

Lemma play_on_idle_chat_witness :
  always_starts healthy guild7 (_get_chat_id guild7 "discord") /\
  exists h',
    search_and_play healthy "A" guild7 "discord" false init = Return h' trackA /\
    current_songs h' !! 7 = Some trackA /\ queues h' !! 7 = Some [] /\
    is_Some (voice_clients h' !! 7).
Proof.
  split; [exact healthy_always_starts |].
  exact (play_on_idle_chat healthy guild7 false "A"
           {| si_title := "A"; si_url := "https://youtu.be/A"; si_duration := 180;
              si_thumbnail := None; si_view_count := None; si_uploader := None |}
           init healthy_always_starts eq_refl eq_refl eq_refl).
Defined.

(** X8: when the search finds nothing, [search_and_play] raises "Song not
    found!"; nothing is queued and no song becomes current.  The one trace
    it leaves is an empty queue entry for a chat that had none. *)
Theorem song_not_found w ctx platform video query h :
  search_song w query = None ->
  exists h',
    search_and_play w query ctx platform video h =
      Raise h' (Exception "Song not found!") /\
    (forall c, queue_of h' c = queue_of h c) /\
    is_Some (queues h' !! _get_chat_id ctx platform) /\
    current_songs h' = current_songs h /\
    loop_modes h' = loop_modes h /\
    playback_speeds h' = playback_speeds h /\
    voice_clients h' = voice_clients h /\
    driver_calls h' = driver_calls h ++ [SearchSong query].
Proof.
  intros Hs. unfold search_and_play. rewrite Hs.
  set (chat_id := _get_chat_id ctx platform).
  destruct (queues h !! chat_id) as [q |] eqn:Hq;
    eexists; (split; [reflexivity |]); simpl; repeat split; eauto.
  - intros c. unfold queue_of. simpl.
    destruct (decide (chat_id = c)) as [<- | Hne].
    + now rewrite lookup_insert_eq, Hq.
    + now rewrite lookup_insert_ne.
  - rewrite lookup_insert_eq. eauto.
Qed.

Lemma song_not_found_witness :
  search_song deaf "A" = None /\
  exists h',
    search_and_play deaf "A" guild7 "discord" false init =
      Raise h' (Exception "Song not found!") /\
    queues h' !! 7 = Some [] /\ current_songs h' !! 7 = None.
Proof.
  split; [reflexivity |].
  destruct (song_not_found deaf guild7 "discord" false "A" init eq_refl)
    as (h' & E & _).
  exists h'. split; [exact E |].
  assert (h' = state_of (search_and_play deaf "A" guild7 "discord" false init))
    as -> by (now rewrite E).
  split; reflexivity.
Defined.

(** * [set_loop_mode], [skip_song], [set_playback_speed] and [stop_playback]
      at work *)

(** X9: [set_loop_mode] without a mode switches a chat whose loop is off to
    queue loop and switches every other loop mode off; a second call in a
    row therefore gives back the loop mode the chat had only when that was
    0 or 2. *)
Theorem loop_toggle ctx platform h :
  let chat_id := _get_chat_id ctx platform in
  let h1 := (set_loop_mode ctx None platform h).1 in
  let h2 := (set_loop_mode ctx None platform h1).1 in
  loop_mode_of h1 chat_id = (if loop_mode_of h chat_id =? 0 then 2 else 0) /\
  loop_mode_of h2 chat_id = (if loop_mode_of h chat_id =? 0 then 0 else 2) /\
  (set_loop_mode ctx None platform h).2 = LoopModeSetTo (loop_mode_of h1 chat_id) /\
  queues h2 = queues h /\ current_songs h2 = current_songs h /\
  playback_speeds h2 = playback_speeds h /\ voice_clients h2 = voice_clients h /\
  driver_calls h2 = driver_calls h.
Proof.
  intros chat_id h1 h2.
  assert (loop_mode_of h1 chat_id = (if loop_mode_of h chat_id =? 0 then 2 else 0))
    as E1.
  { subst h1. unfold set_loop_mode. fold chat_id.
    destruct (loop_mode_of h chat_id =? 0); simpl;
      unfold loop_mode_of; simpl; now rewrite lookup_insert_eq. }
  assert (loop_mode_of h2 chat_id = (if loop_mode_of h chat_id =? 0 then 0 else 2))
    as E2.
  { subst h2. unfold set_loop_mode at 1. fold chat_id. rewrite E1.
    destruct (loop_mode_of h chat_id =? 0); simpl;
      unfold loop_mode_of; simpl; now rewrite lookup_insert_eq. }
  split; [exact E1 |]. split; [exact E2 |]. split.
  - rewrite E1. unfold set_loop_mode. fold chat_id.
    destruct (loop_mode_of h chat_id =? 0); reflexivity.
  - subst h2 h1. unfold set_loop_mode. fold chat_id.
    destruct (loop_mode_of h chat_id =? 0); simpl;
      unfold loop_mode_of; simpl; rewrite lookup_insert_eq; simpl;
      repeat split; reflexivity.
Qed.

(** The last call of a start that returned, on Discord, is the [play] with
    the [atempo] option of the stored speed. *)
Lemma start_playback_last_call w ctx chat_id song h h' :
  start_playback w ctx "discord" chat_id song h = Return h' tt ->
  exists vc audio_source,
    last (driver_calls h') = Some (Play vc audio_source (atempo h chat_id)).
Proof.
  unfold start_playback, _get_audio_source, _play_discord. simpl.
  repeat case_match; intros; simplify_eq; simpl; rewrite last_snoc; eauto.
Qed.

(** Collaborators whose player has stopped. *)
Definition silent : Externals :=
  {| extract_info := extract_info healthy;
     search_song := search_song healthy;
     connect := connect healthy;
     play := play healthy;
     disconnect := disconnect healthy;
     is_playing := fun _ => false;
     is_paused := is_paused healthy;
     pytgcalls := pytgcalls healthy |}.

(** A [skip_song] given while the player of the chat is not playing starts
    the head of the queue, when the driver starts it. *)
Lemma skip_song_stopped_player w ctx h vc song rest h' :
  voice_clients h !! _get_chat_id ctx "discord" = Some vc ->
  is_playing w vc = false ->
  queues h !! _get_chat_id ctx "discord" = Some (song :: rest) ->
  start_playback w ctx "discord" (_get_chat_id ctx "discord") song
    (take_head (_get_chat_id ctx "discord") song rest h) = Return h' tt ->
  skip_song w ctx "discord" h = (h', PlayingNext) /\
  current_songs h' !! _get_chat_id ctx "discord" = Some song /\
  queues h' !! _get_chat_id ctx "discord" = Some rest /\
  loop_modes h' = loop_modes h /\
  playback_speeds h' = playback_speeds h.
Proof.
  set (chat_id := _get_chat_id ctx "discord").
  intros Hv Hp Hq Es.
  pose proof (start_playback_queues w ctx "discord" chat_id song
                (take_head chat_id song rest h)) as Fq.
  destruct (start_playback_frame w ctx "discord" chat_id song
              (take_head chat_id song rest h)) as (Fc & Fl & Fp).
  rewrite Es in Fq, Fc, Fl, Fp. simpl in Fq, Fc, Fl, Fp.
  split; [| rewrite Fq, Fc, !lookup_insert_eq; auto].
  unfold skip_song, has_queue. fold chat_id. simpl. rewrite Hv, Hp, Hq.
  rewrite (_play_next_started w chat_id ctx "discord" h song rest Hq);
    rewrite Es; reflexivity.
Qed.

(** X10: on Discord, skipping while the stored voice client plays changes
    no dictionary: it only asks the driver to stop.  With the loop off or on
    "current song", the callback the player thread runs next changes nothing
    either, so the skipped song is still the current one and the queue is as
    it was.  A second [skip_song], given once the player has stopped, makes
    the head of the queue the current song, when the driver starts it, and
    leaves the rest queued. *)
Theorem skip_then_track_end w w' ctx h vc song rest h' :
  voice_clients h !! _get_chat_id ctx "discord" = Some vc ->
  is_playing w vc = true ->
  loop_mode_of h (_get_chat_id ctx "discord") <= 1 ->
  queues h !! _get_chat_id ctx "discord" = Some (song :: rest) ->
  is_playing w' vc = false ->
  start_playback w' ctx "discord" (_get_chat_id ctx "discord") song
    (take_head (_get_chat_id ctx "discord") song rest (call (Stop vc) h))
    = Return h' tt ->
  skip_song w ctx "discord" h = (call (Stop vc) h, Skipped) /\
  after_playing_in_player_thread (_get_chat_id ctx "discord") (call (Stop vc) h)
    = Raise (call (Stop vc) h) no_running_event_loop /\
  skip_song w' ctx "discord" (call (Stop vc) h) = (h', PlayingNext) /\
  current_songs h' !! _get_chat_id ctx "discord" = Some song /\
  queues h' !! _get_chat_id ctx "discord" = Some rest.
Proof.
  set (chat_id := _get_chat_id ctx "discord").
  intros Hv Hp Hl Hq Hp' Es. split; [| split].
  - unfold skip_song. fold chat_id. simpl. now rewrite Hv, Hp.
  - now apply player_thread_no_loop.
  - destruct (skip_song_stopped_player w' ctx (call (Stop vc) h) vc song rest h'
                Hv Hp' Hq Es) as (E & Hc' & Hq' & _).
    auto.
Qed.

Lemma skip_then_track_end_witness :
  let h := playing trackA [trackB; trackC] 0 in
  skip_song healthy guild7 "discord" h = (call (Stop (VC 70)) h, Skipped) /\
  now_playing
    (state_of (after_playing_in_player_thread 7 (call (Stop (VC 70)) h))) 7
    = (Some trackA, [trackB; trackC], 0) /\
  now_playing (skip_song silent guild7 "discord" (call (Stop (VC 70)) h)).1 7
    = (Some trackB, [trackC], 0).
Proof.
  intros h.
  destruct (skip_then_track_end healthy silent guild7 h (VC 70) trackB [trackC]
              (skip_song silent guild7 "discord" (call (Stop (VC 70)) h)).1
              eq_refl eq_refl) as (E1 & E2 & E3 & _).
  - vm_compute. discriminate.
  - reflexivity.
  - reflexivity.
  - reflexivity.
  - split; [exact E1 |]. split; reflexivity.
Defined.

(** X11: on Discord, a speed between 0.5 and 2.0 set while a song plays
    with the loop off or on "current song" is stored, the song is put back
    at the head of the queue and the driver is asked to stop.  The callback
    the player thread runs next changes nothing, so the song is both the
    current one and the head of the queue.  A [skip_song] given once the
    player has stopped starts the same song again, in front of the same
    queue, with the [atempo] option of the new speed, when the driver starts
    it. *)
Theorem speed_change_restarts_current w w' ctx (speed : float) h vc current q h2 :
  PrimFloat.ltb speed 0.5%float = false ->
  PrimFloat.ltb 2.0%float speed = false ->
  current_songs h !! _get_chat_id ctx "discord" = Some current ->
  queues h !! _get_chat_id ctx "discord" = Some q ->
  voice_clients h !! _get_chat_id ctx "discord" = Some vc ->
  is_playing w vc = true ->
  loop_mode_of h (_get_chat_id ctx "discord") <= 1 ->
  is_playing w' vc = false ->
  start_playback w' ctx "discord" (_get_chat_id ctx "discord") current
    (take_head (_get_chat_id ctx "discord") current q
       (state_of (set_playback_speed w ctx speed "discord" h))) = Return h2 tt ->
  exists h1 vc' audio_source,
    set_playback_speed w ctx speed "discord" h = Return h1 true /\
    playback_speeds h1 !! _get_chat_id ctx "discord" = Some speed /\
    current_songs h1 !! _get_chat_id ctx "discord" = Some current /\
    queues h1 !! _get_chat_id ctx "discord" = Some (current :: q) /\
    driver_calls h1 = driver_calls h ++ [Stop vc] /\
    after_playing_in_player_thread (_get_chat_id ctx "discord") h1
      = Raise h1 no_running_event_loop /\
    skip_song w' ctx "discord" h1 = (h2, PlayingNext) /\
    current_songs h2 !! _get_chat_id ctx "discord" = Some current /\
    queues h2 !! _get_chat_id ctx "discord" = Some q /\
    last (driver_calls h2) =
      Some (Play vc' audio_source
              (if PrimFloat.eqb speed 1.0%float then None else Some speed)).
Proof.
  set (chat_id := _get_chat_id ctx "discord").
  intros Lo Hi Hc Hq Hv Hp Hl Hp'.
  set (h1 := call (Stop vc)
               (set_queues (<[chat_id := current :: q]> (queues h))
                  (set_playback_speeds (<[chat_id := speed]> (playback_speeds h)) h))).
  assert (set_playback_speed w ctx speed "discord" h = Return h1 true) as E1.
  { unfold set_playback_speed. fold chat_id. rewrite Lo, Hi. simpl.
    rewrite Hc, Hq. simpl. now rewrite Hv, Hp. }
  intros Es. rewrite E1 in Es. simpl in Es.
  assert (queues h1 !! chat_id = Some (current :: q)) as Hq1
    by apply lookup_insert_eq.
  destruct (start_playback_last_call _ _ _ _ _ _ Es) as (vc' & src & Hlast).
  destruct (skip_song_stopped_player w' ctx h1 vc current q h2 Hv Hp' Hq1 Es)
    as (E2 & Hc2 & Hq2 & _).
  exists h1, vc', src. split; [exact E1 |].
  split; [apply lookup_insert_eq |]. split; [exact Hc |]. split; [exact Hq1 |].
  split; [reflexivity |].
  split; [apply player_thread_no_loop; exact Hl |].
  split; [exact E2 |]. split; [exact Hc2 |]. split; [exact Hq2 |].
  rewrite Hlast. unfold atempo, speed_of. simpl. rewrite lookup_insert_eq. simpl.
  destruct (PrimFloat.eqb speed 1.0%float); reflexivity.
Qed.

Lemma speed_change_restarts_current_witness :
  let h := playing trackA [trackB] 0 in
  exists h1 h2,
    set_playback_speed healthy guild7 1.5%float "discord" h = Return h1 true /\
    now_playing (state_of (after_playing_in_player_thread 7 h1)) 7
      = (Some trackA, [trackA; trackB], 0) /\
    skip_song silent guild7 "discord" h1 = (h2, PlayingNext) /\
    now_playing h2 7 = (Some trackA, [trackB], 0) /\
    last (driver_calls h2)
      = Some (Play (VC 70) "stream:https://youtu.be/A" (Some 1.5%float)).
Proof.
  intros h.
  destruct (speed_change_restarts_current healthy silent guild7 1.5%float h
              (VC 70) trackA [trackB]
              (skip_song silent guild7 "discord"
                 (state_of (set_playback_speed healthy guild7 1.5%float
                              "discord" h))).1
              eq_refl eq_refl eq_refl eq_refl eq_refl eq_refl)
    as (h1 & vc' & src & E1 & _ & _ & _ & _ & E2 & E3 & _).
  - vm_compute. discriminate.
  - reflexivity.
  - reflexivity.
  - exists h1, (skip_song silent guild7 "discord" h1).1.
    injection E1 as <-.
    split; [reflexivity |]. split; [reflexivity |].
    split; [reflexivity |]. split; reflexivity.
Defined.

(** Off Discord [_play_next] stores no voice client. *)
Lemma _play_next_voice_telegram w chat_id ctx platform h :
  if is_discord platform then True
  else voice_clients (_play_next w chat_id ctx platform h) = voice_clients h.
Proof.
  funelim (_play_next w chat_id ctx platform h); try clear Heqcall;
    destruct (is_discord platform) eqn:Hd; try exact I; try reflexivity.
  all: match goal with
       | E : start_playback ?w ?ctx ?p ?k ?s ?h0 = _ |- _ =>
           assert (voice_clients (state_of (start_playback w ctx p k s h0))
                   = voice_clients h0) as Fv
             by (unfold start_playback, _get_audio_source, _play_telegram;
                 rewrite Hd; repeat case_match; simplify_eq; reflexivity);
           rewrite E in Fv; simpl in Fv
       end.
  all: try match goal with IH : voice_clients (_play_next _ _ _ _ _) = _ |- _ =>
         rewrite IH end.
  all: exact Fv.
Qed.

(** What a [stop_playback] that returned leaves in [voice_clients]. *)
Lemma stop_playback_voice w ctx platform h :
  raised (stop_playback w ctx platform h) = false ->
  voice_clients (state_of (stop_playback w ctx platform h)) =
  if is_discord platform then delete (_get_chat_id ctx platform) (voice_clients h)
  else voice_clients h.
Proof.
  unfold stop_playback. set (chat_id := _get_chat_id ctx platform).
  destruct (is_discord platform); [| reflexivity]. simpl.
  destruct (voice_clients h !! chat_id) as [vc |] eqn:Hv.
  - destruct (disconnect w vc); simpl; [| discriminate].
    intros _. destruct (is_playing w vc || is_paused w vc); reflexivity.
  - intros _. simpl. symmetry. now apply delete_id.
Qed.

(** X12: a [stop_playback] that returned leaves the chat with no current
    song, an empty queue, the loop off and, on Discord, no stored voice
    client; a second [stop_playback] then returns at once, with no call to
    the driver and the state untouched. *)
Theorem stop_twice w ctx platform h w' :
  raised (stop_playback w ctx platform h) = false ->
  now_playing (state_of (stop_playback w ctx platform h)) (_get_chat_id ctx platform)
    = (None, [], 0) /\
  (if is_discord platform
   then idle (state_of (stop_playback w ctx platform h)) (_get_chat_id ctx platform)
   else voice_clients (state_of (stop_playback w ctx platform h)) = voice_clients h) /\
  stop_playback w' ctx platform (state_of (stop_playback w ctx platform h))
    = Return (state_of (stop_playback w ctx platform h)) tt.
Proof.
  intros Hr. set (chat_id := _get_chat_id ctx platform).
  destruct (stop_playback_cleared w ctx platform h) as (Eq & Ec & El & Ep).
  pose proof (stop_playback_voice w ctx platform h Hr) as Ev.
  fold chat_id in Eq, Ec, El, Ev.
  set (h' := state_of (stop_playback w ctx platform h)) in *.
  assert (queues h' !! chat_id = None) as Hq by (rewrite Eq; apply lookup_delete_eq).
  assert (current_songs h' !! chat_id = None) as Hc by (rewrite Ec; apply lookup_delete_eq).
  assert (loop_modes h' !! chat_id = None) as Hl by (rewrite El; apply lookup_delete_eq).
  split; [| split].
  - unfold now_playing, queue_of, loop_mode_of. now rewrite Hq, Hc, Hl.
  - destruct (is_discord platform); [| exact Ev].
    repeat split; [exact Hc | unfold has_queue; now rewrite Hq |].
    rewrite Ev. apply lookup_delete_eq.
  - assert (voice_clients h' !! chat_id = None \/ is_discord platform = false) as Hv.
    { destruct (is_discord platform); [left | now right].
      rewrite Ev. apply lookup_delete_eq. }
    unfold stop_playback. fold chat_id. simpl.
    assert (set_loop_modes (delete chat_id (loop_modes h'))
              (set_current_songs (delete chat_id (current_songs h'))
                 (set_queues (delete chat_id (queues h')) h')) = h') as ->.
    { apply handler_eq; simpl; try reflexivity; apply delete_id; assumption. }
    destruct Hv as [-> | ->]; [destruct (is_discord platform) |]; reflexivity.
Qed.

Lemma stop_twice_witness :
  raised (stop_playback healthy guild7 "discord" (playing trackA [trackB] 2)) = false /\
  idle (state_of (stop_playback healthy guild7 "discord" (playing trackA [trackB] 2))) 7 /\
  stop_playback broken guild7 "discord"
    (state_of (stop_playback healthy guild7 "discord" (playing trackA [trackB] 2)))
  = Return (state_of (stop_playback healthy guild7 "discord"
                        (playing trackA [trackB] 2))) tt.
Proof.
  split; [reflexivity |].
  destruct (stop_twice healthy guild7 "discord" (playing trackA [trackB] 2) broken
              eq_refl) as (_ & I & E).
  split; [exact I | exact E].
Defined.

(** X13: when a track ends with the loop off or on "current song", the
    callback of the player thread changes nothing and calls no driver: the
    song that ended stays the current song of the chat and the queue is not
    advanced.  A request that follows therefore finds a current song: the
    track it finds is only appended to the queue, and nothing is started. *)
Theorem track_end_leaves_current w ctx query video h current song_info :
  loop_mode_of h (_get_chat_id ctx "discord") <= 1 ->
  current_songs h !! _get_chat_id ctx "discord" = Some current ->
  search_song w query = Some song_info ->
  after_playing_in_player_thread (_get_chat_id ctx "discord") h
    = Raise h no_running_event_loop /\
  exists h',
    search_and_play w query ctx "discord" video h =
      Return h' (song_data_of ctx "discord" video song_info) /\
    current_songs h' !! _get_chat_id ctx "discord" = Some current /\
    queue_of h' (_get_chat_id ctx "discord") =
      queue_of h (_get_chat_id ctx "discord")
      ++ [song_data_of ctx "discord" video song_info] /\
    voice_clients h' = voice_clients h /\
    driver_calls h' = driver_calls h ++ [SearchSong query].
Proof.
  intros Hl Hc Hs. split; [now apply player_thread_no_loop |].
  destruct (search_and_play_enqueues w query ctx "discord" video h current
              song_info Hc Hs) as (h' & E & Eq & Ec & _ & _ & Ev & Ed).
  exists h'. split; [exact E |]. split; [now rewrite Ec |].
  split; [unfold queue_of at 1; now rewrite Eq, lookup_insert_eq |]. auto.
Qed.

Lemma track_end_leaves_current_witness :
  let h := playing trackA [] 0 in
  now_playing (state_of (after_playing_in_player_thread 7 h)) 7
    = (Some trackA, [], 0) /\
  driver_calls (state_of (after_playing_in_player_thread 7 h)) = [] /\
  now_playing (state_of (search_and_play healthy "B" guild7 "discord" false h)) 7
    = (Some trackA, [trackB], 0) /\
  driver_calls (state_of (search_and_play healthy "B" guild7 "discord" false h))
    = [SearchSong "B"].
Proof.
  intros h.
  destruct (track_end_leaves_current healthy guild7 "B" false h trackA
              {| si_title := "B"; si_url := "https://youtu.be/B";
                 si_duration := 180; si_thumbnail := None;
                 si_view_count := None; si_uploader := None |})
    as (E1 & h' & E2 & _).
  - vm_compute. discriminate.
  - reflexivity.
  - reflexivity.
  - clear E1 E2. repeat split.
Defined.

(** X14: in a chat the handler knows nothing of, a [search_and_play]
    followed by a [stop_playback] that returns puts the five dictionaries
    back as they were, whether the search found a track or not and whether
    the track started or not. *)
Theorem play_then_stop w ctx platform video query h w' :
  queues h !! _get_chat_id ctx platform = None ->
  current_songs h !! _get_chat_id ctx platform = None ->
  loop_modes h !! _get_chat_id ctx platform = None ->
  voice_clients h !! _get_chat_id ctx platform = None ->
  raised (stop_playback w' ctx platform
            (state_of (search_and_play w query ctx platform video h))) = false ->
  let h2 := state_of (stop_playback w' ctx platform
                        (state_of (search_and_play w query ctx platform video h))) in
  queues h2 = queues h /\ current_songs h2 = current_songs h /\
  loop_modes h2 = loop_modes h /\ playback_speeds h2 = playback_speeds h /\
  voice_clients h2 = voice_clients h.
Proof.
  set (chat_id := _get_chat_id ctx platform).
  intros Hq Hc Hl Hv Hr h2.
  set (h1 := state_of (search_and_play w query ctx platform video h)) in *.
  assert (forall c, c <> chat_id -> same_at c h1 h) as Hsame.
  { intros c Hne. subst h1. unfold search_and_play. fold chat_id.
    repeat case_match; simpl; untouched. }
  assert (loop_modes h1 = loop_modes h /\ playback_speeds h1 = playback_speeds h)
    as (El1 & Ep1).
  { assert (forall h0, loop_modes (_play_next w chat_id ctx platform h0)
                       = loop_modes h0) as Fl by (intros; apply _play_next_frame).
    assert (forall h0, playback_speeds (_play_next w chat_id ctx platform h0)
                       = playback_speeds h0) as Fp by (intros; apply _play_next_frame).
    subst h1. unfold search_and_play. fold chat_id.
    repeat case_match; simpl; rewrite ?Fl, ?Fp; auto. }
  destruct (stop_playback_cleared w' ctx platform h1) as (Eq & Ec & El & Ep).
  pose proof (stop_playback_voice w' ctx platform h1 Hr) as Ev.
  fold chat_id h2 in Eq, Ec, El, Ep, Ev.
  assert (forall {V} (m1 m : gmap Z V),
            m !! chat_id = None ->
            (forall c, c <> chat_id -> m1 !! c = m !! c) ->
            delete chat_id m1 = m) as Hdel.
  { intros V m1 m Hm Ho. apply map_eq. intros c.
    destruct (decide (c = chat_id)) as [-> | Hne].
    - now rewrite lookup_delete_eq.
    - rewrite lookup_delete_ne by done. now apply Ho. }
  split; [rewrite Eq; apply Hdel; [exact Hq | intros c Hne; apply (Hsame c Hne)] |].
  split; [rewrite Ec; apply Hdel; [exact Hc | intros c Hne; apply (Hsame c Hne)] |].
  split; [rewrite El, El1; now apply delete_id |].
  split; [now rewrite Ep |].
  rewrite Ev. destruct (is_discord platform) eqn:Hd.
  - apply Hdel; [exact Hv | intros c Hne; apply (Hsame c Hne)].
  - subst h1. unfold search_and_play. fold chat_id.
    assert (forall h0, voice_clients (_play_next w chat_id ctx platform h0)
                       = voice_clients h0) as Hn.
    { intros h0. pose proof (_play_next_voice_telegram w chat_id ctx platform h0) as T.
      now rewrite Hd in T. }
    repeat case_match; simpl; rewrite ?Hn; reflexivity.
Qed.

Lemma play_then_stop_witness :
  raised (stop_playback healthy guild7 "discord"
            (state_of (search_and_play healthy "A" guild7 "discord" false init))) = false /\
  queues (state_of (stop_playback healthy guild7 "discord"
            (state_of (search_and_play healthy "A" guild7 "discord" false init))))
    = queues init /\
  voice_clients (state_of (stop_playback healthy guild7 "discord"
            (state_of (search_and_play healthy "A" guild7 "discord" false init))))
    = voice_clients init.
Proof.
  split; [reflexivity |].
  destruct (play_then_stop healthy guild7 "discord" false "A" init healthy
              eq_refl eq_refl eq_refl eq_refl eq_refl) as (Eq & _ & _ & _ & Ev).
  split; [exact Eq | exact Ev].
Defined.

(** * The [/speed] command of [main.py] *)

(** The part of a [MusicBot] the speed command touches: its handler and the
    counters of [self.stats]. *)
Record MusicBot := {
  music_handler : MusicHandler;
  commands_executed : Z;
  songs_played : Z
}.

(** The three messages [speed_command] can send. *)
Inductive SpeedReply :=
  | SpeedMustBeBetween
  | PlaybackSpeedSetTo (speed : float)
  | NothingIsPlaying.

(** What a command handler ends with: the message it sends, or the
    exception it lets through. *)
Inductive Sent (R : Type) :=
  | Reply (bot : MusicBot) (msg : R)
  | Escaped (bot : MusicBot) (e : Exn).
Arguments Reply {R} bot msg.
Arguments Escaped {R} bot e.

(** [speed_command]: count the command, check the range, call
    [set_playback_speed] and choose the message from its result. *)
Definition speed_command (w : Externals) (ctx : Context) (speed : float)
    (platform : string) (bot : MusicBot) : Sent SpeedReply :=
  let counted h :=
    {| music_handler := h;
       commands_executed := commands_executed bot + 1;
       songs_played := songs_played bot |} in
  if PrimFloat.ltb speed 0.5%float || PrimFloat.ltb 2.0%float speed then
    Reply (counted (music_handler bot)) SpeedMustBeBetween
  else
    match set_playback_speed w ctx speed platform (music_handler bot) with
    | Return h result =>
        Reply (counted h)
              (if result then PlaybackSpeedSetTo speed else NothingIsPlaying)
    | Raise h e => Escaped (counted h) e
    end.

(** X15: whatever the history of the handler, [speed_command] answers:
    "must be between 0.5 and 2.0" for a speed below 0.5 or above 2.0, with
    the handler untouched, and "speed set" for every other speed, with the
    speed stored.  It never answers "Nothing is playing", not even in a
    chat where nothing plays, and it counts one command. *)
Theorem speed_command_replies events w ctx (speed : float) platform n m :
  exists bot',
    speed_command w ctx speed platform
      {| music_handler := replay events init;
         commands_executed := n; songs_played := m |}
    = Reply bot'
        (if PrimFloat.ltb speed 0.5%float || PrimFloat.ltb 2.0%float speed
         then SpeedMustBeBetween else PlaybackSpeedSetTo speed) /\
    commands_executed bot' = n + 1 /\
    songs_played bot' = m /\
    (if PrimFloat.ltb speed 0.5%float || PrimFloat.ltb 2.0%float speed
     then music_handler bot' = replay events init
     else playback_speeds (music_handler bot') !! _get_chat_id ctx platform
          = Some speed).
Proof.
  pose proof (replay_invariant queue_key_invariant queue_key_invariant_init
                queue_key_invariant_run events) as I.
  destruct (set_playback_speed_returns w ctx speed platform _ I) as (h' & E).
  unfold speed_command. simpl. rewrite E.
  pose proof E as E'. unfold set_playback_speed in E'.
  destruct (PrimFloat.ltb speed 0.5%float || PrimFloat.ltb 2.0%float speed);
    simpl; eexists; (split; [reflexivity |]); simpl; repeat split.
  revert E'. repeat case_match; intros; simplify_eq; simpl;
    apply lookup_insert_eq.
Qed.

(** * [_format_duration] *)

(** The format [{n:02d}]: the decimal digits of [n], with a [0] in front
    when that is a single digit. *)
Definition fmt02d (n : Z) : string :=
  let s := pretty n in
  if (String.length s <? 2)%nat then "0" +:+ s else s.

(** [_format_duration]: [MM:SS], or [HH:MM:SS] from one hour on; [//] and
    [%] round towards minus infinity, as [Z.div] and [Z.modulo] do. *)
Definition _format_duration (seconds : Z) : string :=
  if seconds =? 0 then "00:00"
  else
    let hours := seconds / 3600 in
    let minutes := (seconds mod 3600) / 60 in
    let seconds := seconds mod 60 in
    if 0 <? hours then
      fmt02d hours +:+ ":" +:+ fmt02d minutes +:+ ":" +:+ fmt02d seconds
    else
      fmt02d minutes +:+ ":" +:+ fmt02d seconds.

(** The value of a decimal digit. *)
Definition digit (a : Ascii.ascii) : option Z :=
  let n := Z.of_N (Ascii.N_of_ascii a) in
  if (48 <=? n) && (n <=? 57) then Some (n - 48) else None.

(** Reading [MM:SS] back as a number of seconds. *)
Definition read_mmss (s : string) : option Z :=
  match s with
  | String m1 (String m2 (String ":"%char (String s1 (String s2 EmptyString)))) =>
      match digit m1, digit m2, digit s1, digit s2 with
      | Some a, Some b, Some c, Some d => Some ((10 * a + b) * 60 + (10 * c + d))
      | _, _, _, _ => None
      end
  | _ => None
  end.

Lemma forallb_seqZ (P : Z -> bool) (len : Z) :
  forallb P (seqZ 0 len) = true -> forall x, 0 <= x < len -> P x = true.
Proof.
  intros H x Hx. rewrite forallb_forall in H. apply H.
  apply list_elem_of_In, elem_of_seqZ. lia.
Qed.

Lemma read_mmss_below_an_hour t :
  0 <= t < 3600 ->
  read_mmss (fmt02d (t / 60) +:+ ":" +:+ fmt02d (t mod 60)) = Some t.
Proof.
  intros Ht.
  apply (bool_decide_eq_true_1 _).
  revert t Ht.
  apply (forallb_seqZ
           (fun t => bool_decide
              (read_mmss (fmt02d (t / 60) +:+ ":" +:+ fmt02d (t mod 60)) = Some t))).
  vm_compute. reflexivity.
Qed.

(** X16: a duration below one hour is written [MM:SS], and reading the
    minutes and seconds back gives the duration; a negative duration is
    written as the time it leaves after whole hours are taken off, with no
    sign. *)
Theorem format_duration_reads_back seconds :
  seconds < 3600 ->
  read_mmss (_format_duration seconds) = Some (seconds mod 3600).
Proof.
  intros Hs. unfold _format_duration.
  destruct (Z.eqb_spec seconds 0) as [-> | Hne]; [reflexivity |].
  assert (seconds / 3600 <= 0) as Hh
    by (apply Z.lt_succ_r; apply Z.div_lt_upper_bound; lia).
  destruct (Z.ltb_spec 0 (seconds / 3600)); [lia |].
  pose proof (Z.mod_pos_bound seconds 3600 ltac:(lia)) as Ht.
  rewrite <- (Z.mod_mod_divide seconds 3600 60) by (now exists 60).
  now apply read_mmss_below_an_hour.
Qed.

Lemma format_duration_reads_back_witness :
  125 < 3600 /\ _format_duration 125 = "02:05" /\
  read_mmss (_format_duration 125) = Some 125.
Proof.
  split; [lia |]. split; [reflexivity |].
  exact (format_duration_reads_back 125 ltac:(lia)).
Defined.

(** X17: from one hour on the text is the hours, on two digits or more,
    then a colon, then the text of what is left of the duration once the
    whole hours are taken off. *)
Theorem format_duration_hours seconds :
  3600 <= seconds ->
  _format_duration seconds =
  fmt02d (seconds / 3600) +:+ ":" +:+ _format_duration (seconds mod 3600).
Proof.
  intros Hs. unfold _format_duration at 1.
  destruct (Z.eqb_spec seconds 0); [lia |].
  assert (1 <= seconds / 3600) by (apply Z.div_le_lower_bound; lia).
  destruct (Z.ltb_spec 0 (seconds / 3600)); [| lia].
  do 2 f_equal.
  pose proof (Z.mod_pos_bound seconds 3600 ltac:(lia)) as Ht.
  assert (seconds mod 60 = (seconds mod 3600) mod 60) as E60
    by (symmetry; apply Z.mod_mod_divide; now exists 60).
  unfold _format_duration.
  rewrite (Z.mod_small (seconds mod 3600) 3600) by lia.
  rewrite (Z.div_small (seconds mod 3600) 3600) by lia. simpl.
  rewrite E60.
  destruct (Z.eqb_spec (seconds mod 3600) 0) as [E | _]; [| reflexivity].
  rewrite E. reflexivity.
Qed.

Lemma format_duration_hours_witness :
  3600 <= 3725 /\ _format_duration 3725 = "01:02:05".
Proof.
  split; [lia |].
  rewrite (format_duration_hours 3725 ltac:(lia)). reflexivity.
Defined.

(** * More on [set_loop_mode] and [skip_song] *)

(** X18: [set_loop_mode] with a mode below 0 or above 10 answers that the
    mode must be between 0 and 10 and leaves the handler as it was; with a
    mode from 0 to 10 it stores the mode for the chat, touches nothing else
    and confirms that mode. *)
Theorem set_loop_mode_checks_range ctx (mode : Z) platform h :
  let r := set_loop_mode ctx (Some mode) platform h in
  if (mode <? 0) || (10 <? mode) then r = (h, MustBeBetween0And10)
  else
    r.2 = LoopModeSetTo mode /\
    loop_modes r.1 = <[_get_chat_id ctx platform := mode]> (loop_modes h) /\
    loop_mode_of r.1 (_get_chat_id ctx platform) = mode /\
    queues r.1 = queues h /\ current_songs r.1 = current_songs h /\
    playback_speeds r.1 = playback_speeds h /\
    voice_clients r.1 = voice_clients h /\ driver_calls r.1 = driver_calls h.
Proof.
  intros r. subst r. unfold set_loop_mode.
  destruct ((mode <? 0) || (10 <? mode)); [reflexivity |].
  simpl. unfold loop_mode_of. simpl. rewrite lookup_insert_eq.
  repeat split; reflexivity.
Qed.

(** X19: off Discord [skip_song] never asks a driver to stop.  With a track
    queued that starts, it makes that track the current song at once and
    answers that the next song plays; the completion callback and with it
    the loop mode play no part. *)
Theorem skip_on_telegram w ctx platform h song rest :
  is_discord platform = false ->
  queues h !! _get_chat_id ctx platform = Some (song :: rest) ->
  starts w ctx platform (_get_chat_id ctx platform) h song = true ->
  exists h',
    skip_song w ctx platform h = (h', PlayingNext) /\
    current_songs h' !! _get_chat_id ctx platform = Some song /\
    queues h' !! _get_chat_id ctx platform = Some rest /\
    loop_modes h' = loop_modes h /\
    voice_clients h' = voice_clients h /\
    driver_calls h' =
      driver_calls h ++ [ExtractInfo (song_url song);
                         Piped (song_video song) (song_url song)].
Proof.
  set (chat_id := _get_chat_id ctx platform).
  intros Hd Hq Hs.
  assert (raised (start_playback w ctx platform chat_id song
                    (take_head chat_id song rest h)) = false) as Hr.
  { apply negb_true_iff.
    fold (starts w ctx platform chat_id (take_head chat_id song rest h) song).
    rewrite <- Hs. now apply starts_speeds. }
  exists (_play_next w chat_id ctx platform h). split.
  { unfold skip_song. fold chat_id. rewrite Hd. unfold has_queue.
    now rewrite Hq. }
  rewrite (_play_next_started w chat_id ctx platform h song rest Hq Hr).
  revert Hr. unfold start_playback, _get_audio_source, _play_telegram.
  rewrite Hd. repeat case_match; simplify_eq; simpl; try discriminate; intros _.
  all: rewrite !lookup_insert_eq, <- app_assoc; repeat split; reflexivity.
Qed.

Lemma skip_on_telegram_witness :
  is_discord "telegram" = false /\
  starts healthy guild7 "telegram" (_get_chat_id guild7 "telegram")
    (playing trackA [trackB] 1) trackB = true /\
  exists h',
    skip_song healthy guild7 "telegram" (playing trackA [trackB] 1)
      = (h', PlayingNext) /\
    now_playing h' 7 = (Some trackB, [], 1).
Proof.
  split; [reflexivity |]. split; [reflexivity |].
  destruct (skip_on_telegram healthy guild7 "telegram" (playing trackA [trackB] 1)
              trackB [] eq_refl eq_refl eq_refl) as (h' & E & _).
  exists h'. split; [exact E |].
  assert (h' = (skip_song healthy guild7 "telegram" (playing trackA [trackB] 1)).1)
    as -> by (now rewrite E).
  reflexivity.
Defined.
